(** * mcp-adapter: version matcher, stdio transport and process launcher

    A shallow embedding of three packages of the repository,
    [internal/runtime] (version requirements), [internal/mcp] (the
    newline-framed JSON-RPC transport) and [internal/launcher] (process
    lifecycle), followed by the properties proved about them.

    Go strings are byte sequences; they are modelled by [string], whose
    characters are the bytes.  Go's [int] is taken to be 64 bits wide. *)

From Stdlib Require Import ZArith Ascii String List Bool Lia.
From stdpp Require Import base option list gmap strings.

Local Open Scope string_scope.

(* ===================================================================== *)
(** * Package runtime: version requirements *)
(* ===================================================================== *)

Module Runtime.

Local Open Scope Z_scope.

(** The character class [\d] of Go's regexp: the ASCII digits. *)
Definition is_digit (c : ascii) : bool :=
  let n := nat_of_ascii c in (48 <=? n)%nat && (n <=? 57)%nat.

Definition digit_value (c : ascii) : Z := Z.of_nat (nat_of_ascii c) - 48.

(** The line feed, the one character that [.] does not match. *)
Definition LF : ascii := ascii_of_nat 10.

Fixpoint has_LF (s : string) : bool :=
  match s with
  | EmptyString => false
  | String c r => if Ascii.eqb c LF then true else has_LF r
  end.

(** [strings.Split(v, ".")]: the pieces between the dots, never an
    empty list (the empty string splits into one empty piece). *)
Fixpoint Split_dot (v : string) : list string :=
  match v with
  | EmptyString => [EmptyString]
  | String c r =>
      if Ascii.eqb c "."%char then EmptyString :: Split_dot r
      else match Split_dot r with
           | p :: ps => String c p :: ps
           | [] => [String c EmptyString]
           end
  end.

(** [regexp.MustCompile(`^\d+`).FindString(p)]: the longest run of
    digits that starts the string, empty when there is none. *)
Fixpoint leading_digits (p : string) : string :=
  match p with
  | String c r => if is_digit c then String c (leading_digits r) else EmptyString
  | EmptyString => EmptyString
  end.

Definition maxInt : Z := 2 ^ 63 - 1.

(** The decimal value of a digit string, most significant digit first. *)
Fixpoint decimal_from (acc : Z) (s : string) : Z :=
  match s with
  | EmptyString => acc
  | String c r => decimal_from (10 * acc + digit_value c) r
  end.

Definition decimal (s : string) : Z := decimal_from 0 s.

(** [strconv.Atoi] on a non-empty digit string, its error dropped as
    [parseVersion] does ([result[i], _ = strconv.Atoi(numPart)]): the
    decimal value, or the largest [int] when the value does not fit. *)
Definition Atoi (s : string) : Z := Z.min (decimal s) maxInt.

Definition parseComponent (p : string) : Z :=
  let numPart := leading_digits p in
  if String.eqb numPart EmptyString then 0 else Atoi numPart.

Definition parseVersion (v : string) : list Z :=
  map parseComponent (Split_dot v).

(** The loop of [compareVersionParts]: [n] iterations are left, the
    index is [i]; a missing element reads as [0]. *)
Fixpoint compare_from (a b : list Z) (i n : nat) : Z :=
  match n with
  | O => 0
  | S n' =>
      let av := nth i a 0 in
      let bv := nth i b 0 in
      if av <? bv then -1
      else if av >? bv then 1
      else compare_from a b (S i) n'
  end.

Definition compareVersionParts (a b : list Z) : Z :=
  let maxLen := if (length a <? length b)%nat then length b else length a in
  compare_from a b 0 maxLen.

Definition compareVersions (actual operator required : string) : bool :=
  let actualParts := parseVersion actual in
  let requiredParts := parseVersion required in
  let cmp := compareVersionParts actualParts requiredParts in
  if String.eqb operator ">=" then cmp >=? 0
  else if String.eqb operator "<=" then cmp <=? 0
  else if String.eqb operator ">" then cmp >? 0
  else if String.eqb operator "<" then cmp <? 0
  else if String.eqb operator "=" || String.eqb operator "==" then cmp =? 0
  else false.

(** [s] without the prefix [p], when [s] starts with [p]. *)
Fixpoint strip_prefix (p s : string) : option string :=
  match p, s with
  | EmptyString, _ => Some s
  | String a p', String b s' => if Ascii.eqb a b then strip_prefix p' s' else None
  | String _ _, EmptyString => None
  end.

(** The alternatives of the operator group, in the order of the pattern. *)
Definition operators : list string := [">="; "<="; ">"; "<"; "="].

(** What is left for the second group [(.+)$]: it matches the whole
    rest when that is non-empty and holds no line feed. *)
Definition rest_matches (rest : string) : bool :=
  negb (String.eqb rest EmptyString) && negb (has_LF rest).

Fixpoint try_operators (ops : list string) (requirement : string)
  : option (string * string) :=
  match ops with
  | [] => None
  | op :: ops' =>
      match strip_prefix op requirement with
      | Some rest =>
          if rest_matches rest then Some (op, rest)
          else try_operators ops' requirement
      | None => try_operators ops' requirement
      end
  end.

(** [FindStringSubmatch] for the pattern [^(>=|<=|>|<|=)?(.+)$], giving
    the two groups.  Go's regexp prefers the leftmost alternative and
    the optional group taken over left out, and falls back to the next
    choice when the rest of the pattern cannot match. *)
Definition FindStringSubmatch (requirement : string) : option (string * string) :=
  match try_operators operators requirement with
  | Some m => Some m
  | None =>
      if rest_matches requirement then Some (EmptyString, requirement) else None
  end.

Definition MeetsRequirement (version requirement : string) : bool :=
  if String.eqb requirement EmptyString then true
  else
    match FindStringSubmatch requirement with
    | None => false
    | Some (op, requiredVersion) =>
        let operator := if String.eqb op EmptyString then ">=" else op in
        compareVersions version operator requiredVersion
    end.

(** ** The spec's reading of a comparison: zero-pad, then compare
    lexicographically. *)

Definition zero_pad (n : nat) (t : list Z) : list Z :=
  t ++ repeat 0 (n - length t).

Fixpoint lex_compare (a b : list Z) : comparison :=
  match a, b with
  | [], [] => Eq
  | [], _ :: _ => Lt
  | _ :: _, [] => Gt
  | x :: a', y :: b' =>
      match x ?= y with
      | Eq => lex_compare a' b'
      | c => c
      end
  end.

(** [tuple_ge a b]: [a], padded with zeros to the longer of the two
    lengths, is lexicographically greater than or equal to [b] padded
    the same way. *)
Definition tuple_ge (a b : list Z) : Prop :=
  let n := Nat.max (length a) (length b) in
  lex_compare (zero_pad n a) (zero_pad n b) <> Lt.

(** The three results of [compareVersionParts] as a comparison. *)
Definition sign_of (c : comparison) : Z :=
  match c with
  | Eq => 0
  | Lt => -1
  | Gt => 1
  end.

(** ** Vocabulary for statements about version strings *)

Definition starts_with_digit (s : string) : bool :=
  match s with
  | String c _ => is_digit c
  | EmptyString => false
  end.

Fixpoint all_digits (s : string) : bool :=
  match s with
  | EmptyString => true
  | String c r => is_digit c && all_digits r
  end.

Fixpoint has_dot (s : string) : bool :=
  match s with
  | EmptyString => false
  | String c r => if Ascii.eqb c "."%char then true else has_dot r
  end.

(** The components written out with dots between them. *)
Fixpoint join_dots (components : list string) : string :=
  match components with
  | [] => EmptyString
  | [c] => c
  | c :: rest => (c ++ "." ++ join_dots rest)%string
  end.

(** The operator a constraint opens with, by the pattern's order of
    alternatives, and what follows it. *)
Fixpoint split_operator_among (ops : list string) (constraint : string)
  : option (string * string) :=
  match ops with
  | [] => None
  | op :: ops' =>
      match strip_prefix op constraint with
      | Some rest => Some (op, rest)
      | None => split_operator_among ops' constraint
      end
  end.

Definition split_operator (constraint : string) : option (string * string) :=
  split_operator_among operators constraint.

(** After the spec's words: a version is dotted numeric.  A string
    counts as a parseable version when each of its components opens
    with a digit, and a constraint as malformed when an operator is
    present and what follows it is no parseable version. *)
Definition parseable_version (s : string) : bool :=
  forallb starts_with_digit (Split_dot s).

Definition malformed (constraint : string) : bool :=
  match split_operator constraint with
  | Some (_, rest) => negb (parseable_version rest)
  | None => false
  end.

End Runtime.

(* ===================================================================== *)
(** * Package mcp: the newline-framed transport *)
(* ===================================================================== *)

Module Mcp.

(** A Go result pair [(value, error)] of which exactly one is set. *)
Inductive result (A E : Type) : Type :=
| Ok (a : A)
| Err (e : E).
Arguments Ok {A E} a.
Arguments Err {A E} e.

Definition LF : ascii := Runtime.LF.
Definition has_LF : string -> bool := Runtime.has_LF.

(** What the underlying [io.Reader] hands to the [bufio.Reader], in
    order: a byte, or a failed read.  When the events run out the
    stream is at its end and every read answers [io.EOF]. *)
Inductive IOError : Type :=
| EOF
| IOFailure (reason : string).

Inductive ReadEvent : Type :=
| RByte (b : ascii)
| RFail (e : IOError).

Definition bytes_events (s : string) : list ReadEvent :=
  map RByte (list_ascii_of_string s).

(** An [io.Writer]: the bytes it has taken so far and how many more
    it takes before its writes fail ([None]: it never fails).  A write
    that does not fit is cut short and returns an error. *)
Record Writer : Type := mkWriter {
  written : string;
  room : option nat
}.



(** [bufio.Reader.ReadBytes('\n')]: the bytes up to and including the
    first line feed; when a read fails first, the bytes read before
    the failure together with the error.  [acc] holds the bytes of the
    line read so far. *)
Fixpoint ReadBytes_from (acc : string) (input : list ReadEvent)
  : string * option IOError * list ReadEvent :=
  match input with
  | [] => (acc, Some EOF, [])
  | RFail e :: rest => (acc, Some e, rest)
  | RByte b :: rest =>
      if Ascii.eqb b LF then (acc ++ String b EmptyString, None, rest)
      else ReadBytes_from (acc ++ String b EmptyString) rest
  end.

Definition ReadBytes (input : list ReadEvent) := ReadBytes_from EmptyString input.

Section Transport.

(** Go's [interface{}] values, held by [Message.ID] and [Error.Data]. *)
Context {Any : Type}.

Record Error : Type := mkError {
  Code : Z;
  ErrMessage : string;
  Data : Any
}.

(** [json.RawMessage] fields hold the bytes of a JSON value. *)
Record Message : Type := mkMessage {
  JSONRPC : string;
  ID : Any;
  Method : string;
  Params : string;
  Result : string;
  MsgError : option Error
}.

(** [json.Marshal] and [json.Unmarshal] at type [Message], from Go's
    [encoding/json]. *)
Variable Marshal : Message -> result string string.
Variable Unmarshal : string -> result Message string.

Inductive TransportError : Type :=
| MarshalFailed (reason : string)
| WriteMessageFailed (e : IOError)
| WriteNewlineFailed (e : IOError)
| ReadFailed (e : IOError)
| UnmarshalFailed (reason : string).

Record StdioTransport : Type := mkTransport {
  reader : list ReadEvent;
  writer : Writer
}.



Definition Receive (t : StdioTransport)
  : result Message TransportError * StdioTransport :=
  let '(line, err, rest) := ReadBytes (reader t) in
  let t' := mkTransport rest (writer t) in
  match err with
  | Some e => (Err (ReadFailed e), t')
  | None =>
      match Unmarshal line with
      | Err e => (Err (UnmarshalFailed e), t')
      | Ok msg => (Ok msg, t')
      end
  end.






End Transport.

(** ** Go's [encoding/json] on the messages of the transport

    The library is not part of the repository.  [json_Marshal] and
    [json_Unmarshal] model [json.Marshal] and [json.Unmarshal] at type
    [Message], as the documentation of the library has them, on a part
    of the messages and of the lines: [None] stands for what is not
    modelled, and says nothing of what the library does there.

    The messages modelled have a version tag, a method and, if the id
    is a string, an id made of printable ASCII characters that the
    encoder writes as they are (it escapes the quote, the backslash,
    [<], [>] and [&]); their id is [nil], an [int], a [float64] or a
    [string], a number being an integer of size 2^53 at most, where
    [float64] still holds every integer; they have no params, no
    result and no error.  The lines modelled are the encodings of
    these messages, with or without a line feed after them. *)

(** What a [Message.ID] holds: [nil], an [int], a [float64] (given by
    its value, an integer) or a [string]. *)
Inductive GoValue : Type :=
| GoNil
| GoInt (n : Z)
| GoFloat64 (x : Z)
| GoString (s : string).

Definition quote : ascii := ascii_of_nat 34.
Definition backslash : ascii := ascii_of_nat 92.

Definition quoted (s : string) : string :=
  String quote (s ++ String quote EmptyString).

(** The characters that the encoder copies into a JSON string. *)
Definition unescaped (c : ascii) : bool :=
  let n := nat_of_ascii c in
  (32 <=? n)%nat && (n <? 127)%nat
  && negb (Ascii.eqb c quote) && negb (Ascii.eqb c backslash)
  && negb (Ascii.eqb c "<"%char) && negb (Ascii.eqb c ">"%char)
  && negb (Ascii.eqb c "&"%char).

Fixpoint written_as_is (s : string) : bool :=
  match s with
  | EmptyString => true
  | String c r => unescaped c && written_as_is r
  end.

(** The integers that [float64] holds without rounding. *)
Definition float64_exact (n : Z) : bool := (Z.abs n <=? 2 ^ 53)%Z.

(** [strconv.FormatInt(n, 10)]: the decimal digits, most significant
    first, after a minus sign when [n] is negative.  [digits_onto]
    writes the digits of [n] in front of [acc]; [fuel] bounds their
    number. *)
Definition digit_char (d : Z) : ascii := ascii_of_nat (Z.to_nat (48 + d)).

Fixpoint digits_onto (fuel : nat) (n : Z) (acc : string) : string :=
  match fuel with
  | O => acc
  | S fuel' =>
      let acc' := String (digit_char (n mod 10)) acc in
      if (n <? 10)%Z then acc' else digits_onto fuel' (n / 10) acc'
  end.

Definition digits (n : Z) : string :=
  digits_onto (S (Z.to_nat (Z.log2 n))) n EmptyString.

Definition FormatInt (n : Z) : string :=
  if (n <? 0)%Z then String "-"%char (digits (- n)) else digits n.

(** The text of the object up to the version tag, the text between
    the version tag and the method, and the key of the id. *)
Definition version_key : string :=
  ("{" ++ quoted "jsonrpc" ++ ":" ++ String quote EmptyString)%string.

Definition method_key : string :=
  ("," ++ quoted "method" ++ ":" ++ String quote EmptyString)%string.

Definition id_key : string := ("," ++ quoted "id" ++ ":")%string.

(** The member [id]: left out for [nil] ([omitempty]); an [int] and a
    [float64] of integral value are both written as the integer. *)
Definition json_id (v : GoValue) : option string :=
  match v with
  | GoNil => Some EmptyString
  | GoInt n => if float64_exact n then Some (id_key ++ FormatInt n)%string else None
  | GoFloat64 x => if float64_exact x then Some (id_key ++ FormatInt x)%string else None
  | GoString s => if written_as_is s then Some (id_key ++ quoted s)%string else None
  end.

(** The member [method], left out when the method is empty. *)
Definition json_method (method : string) : string :=
  if String.eqb method EmptyString then EmptyString
  else (method_key ++ method ++ String quote EmptyString)%string.

(** [json.Marshal] of a message: the members in the order of the
    fields of the struct. *)
Definition json_Marshal (msg : @Message GoValue) : option string :=
  if written_as_is (JSONRPC msg) && written_as_is (Method msg)
     && String.eqb (Params msg) EmptyString
     && String.eqb (Result msg) EmptyString
     && match MsgError msg with None => true | Some _ => false end
  then match json_id (ID msg) with
       | Some id =>
           Some (version_key ++ JSONRPC msg
                   ++ String quote (id ++ json_method (Method msg) ++ "}"))%string
       | None => None
       end
  else None.

(** The text before the next quote, and the text after that quote. *)
Fixpoint read_until_quote (s : string) : option (string * string) :=
  match s with
  | EmptyString => None
  | String c r =>
      if Ascii.eqb c quote then Some (EmptyString, r)
      else match read_until_quote r with
           | Some (text, rest) => Some (String c text, rest)
           | None => None
           end
  end.

(** The text that follows the digits at the head of a string. *)
Fixpoint after_digits (s : string) : string :=
  match s with
  | String c r => if Runtime.is_digit c then after_digits r else s
  | EmptyString => EmptyString
  end.

(** The text at the head of a string that can be an integer: a minus
    sign, if there is one, and the digits after it; and the rest. *)
Definition integer_text (s : string) : string * string :=
  match s with
  | String c r =>
      if Ascii.eqb c "-"%char
      then (String c (Runtime.leading_digits r), after_digits r)
      else (Runtime.leading_digits s, after_digits s)
  | EmptyString => (EmptyString, EmptyString)
  end.

Definition integer_value (text : string) : Z :=
  match text with
  | String c d =>
      if Ascii.eqb c "-"%char then (- Runtime.decimal d)%Z else Runtime.decimal text
  | EmptyString => 0%Z
  end.

(** The member [id] at the head of a text, if it is there, and the
    text after it.  A number is decoded into the [interface{}] as a
    [float64]; the number read is an integer as [FormatInt] writes it,
    which is how a JSON integer other than [-0] is written. *)
Definition read_id (s : string) : option (GoValue * string) :=
  match Runtime.strip_prefix id_key s with
  | None => Some (GoNil, s)
  | Some r =>
      match r with
      | EmptyString => None
      | String c r' =>
          if Ascii.eqb c quote
          then match read_until_quote r' with
               | Some (text, rest) =>
                   if written_as_is text then Some (GoString text, rest) else None
               | None => None
               end
          else
            let '(text, rest) := integer_text r in
            let x := integer_value text in
            if String.eqb (FormatInt x) text && float64_exact x
            then Some (GoFloat64 x, rest)
            else None
      end
  end.

(** The member [method] at the head of a text, if it is there. *)
Definition read_method (s : string) : option (string * string) :=
  match Runtime.strip_prefix method_key s with
  | None => Some (EmptyString, s)
  | Some r =>
      match read_until_quote r with
      | Some (text, rest) => if written_as_is text then Some (text, rest) else None
      | None => None
      end
  end.

(** [json.Unmarshal] into a fresh [Message]: the members that are
    there are stored, the other fields keep their zero values; a line
    feed after the object is skipped as white space. *)
Definition json_Unmarshal (line : string) : option (@Message GoValue) :=
  match Runtime.strip_prefix version_key line with
  | None => None
  | Some r1 =>
      match read_until_quote r1 with
      | None => None
      | Some (version, r2) =>
          if written_as_is version
          then match read_id r2 with
               | None => None
               | Some (id, r3) =>
                   match read_method r3 with
                   | None => None
                   | Some (method, r4) =>
                       if String.eqb r4 "}"
                          || String.eqb r4 (String "}" (String LF EmptyString))
                       then Some (mkMessage version id method
                                            EmptyString EmptyString None)
                       else None
                   end
               end
          else None
      end
  end.

(** A codec that does what the library does, as far as it is
    modelled. *)
Definition follows_json (Marshal : @Message GoValue -> result string string)
    (Unmarshal : string -> result (@Message GoValue) string) : Prop :=
  (forall (msg : Message) (data : string),
      json_Marshal msg = Some data -> Marshal msg = Ok data)
  /\ (forall (line : string) (msg : Message),
         json_Unmarshal line = Some msg -> Unmarshal line = Ok msg).

(** The model made total, to run the transport: an error stands in
    for what is not modelled. *)
Definition Marshal_modelled (msg : @Message GoValue) : result string string :=
  match json_Marshal msg with
  | Some data => Ok data
  | None => Err "message not modelled"
  end.

Definition Unmarshal_modelled (line : string) : result (@Message GoValue) string :=
  match json_Unmarshal line with
  | Some msg => Ok msg
  | None => Err "line not modelled"
  end.









(** A message whose id is [nil], of a type with no other value. *)
Definition ping : @Message unit :=
  mkMessage "2.0" tt "ping" EmptyString EmptyString None.

End Mcp.

(* ===================================================================== *)
(** * Package launcher: process lifecycle *)
(* ===================================================================== *)

(** A [*Process] is an address into a heap of [Process] objects, so
    that the watcher, [Stop] and the registry share one object as they
    do in the source.  Left out, as nothing proved here reads them: the
    logger, and the cancellation context of the command. *)

Module Launcher.

Import Mcp.

Inductive State : Type :=
| StateUnknown
| StateStarting
| StateRunning
| StateStopping
| StateStopped
| StateFailed.

Definition State_eqb (a b : State) : bool :=
  match a, b with
  | StateUnknown, StateUnknown | StateStarting, StateStarting
  | StateRunning, StateRunning | StateStopping, StateStopping
  | StateStopped, StateStopped | StateFailed, StateFailed => true
  | _, _ => false
  end.

(** ** The manifest types the launcher reads *)

(** [manifest.ServerType] is a string type with three known values. *)
Inductive ServerType : Type :=
| ServerTypeNode
| ServerTypePython
| ServerTypeBinary
| ServerTypeOther (tag : string).

Record RuntimeRequirements : Type := mkRuntimeRequirements {
  Node : string;
  Python : string
}.

(** [manifest.Server], with the fields of [Source] that the launcher
    uses; [Env] lists the map's entries in the order a [range] visits
    them. *)
Record Server : Type := mkServer {
  Name : string;
  Type_ : ServerType;
  SourceNPM : string;
  Entrypoint : string;
  Runtime : RuntimeRequirements;
  Args : list string;
  Env : list (string * string)
}.

(** [runtime.Runtime] *)
Record DetectedRuntime : Type := mkRuntime {
  RtName : string;
  RtPath : string;
  RtVersion : string
}.

(** An open file or pipe end, by its descriptor. *)
Definition Stream : Type := nat.

Record LaunchOptions : Type := mkLaunchOptions {
  OptArgs : list string;
  OptEnv : list (string * string);
  WorkDir : string;
  OptStdin : option Stream;
  OptStdout : option Stream;
  OptStderr : option Stream
}.

(** [exec.Cmd] as [exec.CommandContext] builds it: [CmdArgs] holds the
    command name followed by the arguments. *)
Record Cmd : Type := mkCmd {
  CmdPath : string;
  CmdArgs : list string;
  CmdEnv : list string;
  CmdDir : string;
  CmdStdin : option Stream;
  CmdStdout : option Stream;
  CmdStderr : option Stream
}.

Definition CommandContext (name : string) (arg : list string) : Cmd :=
  mkCmd name (name :: arg) [] EmptyString None None None.

(** What [Cmd.Wait] returns: [nil], an [*exec.ExitError] with its exit
    code, or another error. *)
Inductive WaitResult : Type :=
| WaitSuccess
| WaitExitError (code : Z)
| WaitOtherError (reason : string).

Inductive ProcessError : Type :=
| StartError (reason : string)
| WaitError (r : WaitResult).

Record Process : Type := mkProcess {
  PServer : Server;
  PCmd : Cmd;
  PState : State;
  StartTime : Z;
  StopTime : Z;
  ExitCode : Z;
  PError : option ProcessError;
  Stdin : option Stream;
  Stdout : option Stream;
  Stderr : option Stream
}.

Definition set_State (st : State) (p : Process) : Process :=
  mkProcess (PServer p) (PCmd p) st (StartTime p) (StopTime p) (ExitCode p)
            (PError p) (Stdin p) (Stdout p) (Stderr p).

Definition set_StartTime (t : Z) (p : Process) : Process :=
  mkProcess (PServer p) (PCmd p) (PState p) t (StopTime p) (ExitCode p)
            (PError p) (Stdin p) (Stdout p) (Stderr p).

Definition set_StopTime (t : Z) (p : Process) : Process :=
  mkProcess (PServer p) (PCmd p) (PState p) (StartTime p) t (ExitCode p)
            (PError p) (Stdin p) (Stdout p) (Stderr p).

Definition set_ExitCode (c : Z) (p : Process) : Process :=
  mkProcess (PServer p) (PCmd p) (PState p) (StartTime p) (StopTime p) c
            (PError p) (Stdin p) (Stdout p) (Stderr p).

Definition set_Error (e : ProcessError) (p : Process) : Process :=
  mkProcess (PServer p) (PCmd p) (PState p) (StartTime p) (StopTime p) (ExitCode p)
            (Some e) (Stdin p) (Stdout p) (Stderr p).

Definition set_Cmd (c : Cmd) (p : Process) : Process :=
  mkProcess (PServer p) c (PState p) (StartTime p) (StopTime p) (ExitCode p)
            (PError p) (Stdin p) (Stdout p) (Stderr p).

Definition set_Stdin (s : Stream) (p : Process) : Process :=
  mkProcess (PServer p) (PCmd p) (PState p) (StartTime p) (StopTime p) (ExitCode p)
            (PError p) (Some s) (Stdout p) (Stderr p).

Definition set_Stdout (s : Stream) (p : Process) : Process :=
  mkProcess (PServer p) (PCmd p) (PState p) (StartTime p) (StopTime p) (ExitCode p)
            (PError p) (Stdin p) (Some s) (Stderr p).

Definition set_Stderr (s : Stream) (p : Process) : Process :=
  mkProcess (PServer p) (PCmd p) (PState p) (StartTime p) (StopTime p) (ExitCode p)
            (PError p) (Stdin p) (Stdout p) (Some s).

(** ** What a call sees of the machine it runs on *)

(** The outcomes of the operating-system and library calls that one
    [Launch] makes: the detector's probes, [os.Stat], the path functions
    of [path/filepath], [os.Environ], the three pipe calls (the child's
    end of the pipe, then the caller's), [cmd.Start] and the clock. *)
Record OS : Type := mkOS {
  DetectNode : result DetectedRuntime string;
  DetectPython : result DetectedRuntime string;
  ServersDir : string;
  Join : list string -> string;
  Ext : string -> string;
  Stat : string -> bool;
  Environ : list string;
  StdinPipe : result (Stream * Stream) string;
  StdoutPipe : result (Stream * Stream) string;
  StderrPipe : result (Stream * Stream) string;
  Start : option string;
  Now : Z
}.

(** Who called [Cmd.Wait]. *)
Inductive Waiter : Type :=
| ByWatcher
| ByStop.

(** The calls made on the operating system for a process, named by
    the address of its [Process] object. *)
Inductive OSEvent : Type :=
| EvSpawn (p : nat)
| EvSignalTERM (p : nat)
| EvKill (p : nat)
| EvWait (p : nat) (who : Waiter).

(** The launcher: [procs] maps a server name to the address of its
    [Process]; [heap] holds the [Process] objects made so far, an
    address being an index; [trace] lists the operating-system calls,
    oldest first. *)
Record Launcher : Type := mkLauncher {
  procs : gmap string nat;
  heap : list Process;
  trace : list OSEvent
}.

Definition NewLauncher : Launcher := mkLauncher ∅ [] [].

Inductive LaunchError : Type :=
| AlreadyRunning (name : string)
| RuntimeDetectionFailed (reason : string)
| RuntimeVersionUnmet (version requirement : string)
| EntrypointNotFound (name : string)
| UnknownServerType (tag : string)
| StdinPipeFailed (reason : string)
| StdoutPipeFailed (reason : string)
| StderrPipeFailed (reason : string)
| StartFailed (reason : string)
| NilCommand.

Inductive StopError : Type :=
| NotRunning (name : string)
| NotRunningState (st : State).

(** [Detector.DetectForServer] *)
Definition DetectForServer (os : OS) (server : Server) : result DetectedRuntime string :=
  match Type_ server with
  | ServerTypeNode => DetectNode os
  | ServerTypePython => DetectPython os
  | ServerTypeBinary => Ok (mkRuntime "binary" EmptyString EmptyString)
  | ServerTypeOther tag => Err ("unknown server type: " ++ tag)
  end.

(** [Config.ServerInstallPath] *)
Definition ServerInstallPath (os : OS) (serverName : string) : string :=
  Join os [ServersDir os; serverName].

Definition resolveEntrypoint (os : OS) (server : Server) (installDir : string)
  : result string LaunchError :=
  match Type_ server with
  | ServerTypeNode =>
      let binPath := Join os [installDir; "node_modules"; ".bin"; Entrypoint server] in
      if Stat os binPath then Ok binPath
      else
        let parts := [installDir; "node_modules"] in
        let parts := if String.eqb (SourceNPM server) EmptyString then parts
                     else (parts ++ [SourceNPM server])%list in
        let parts := (parts ++ ["dist"; (Entrypoint server ++ ".js")%string])%list in
        let jsPath := Join os parts in
        if Stat os jsPath then Ok jsPath
        else Err (EntrypointNotFound (Name server))
  | ServerTypePython =>
      let binPath := Join os [installDir; "venv"; "bin"; Entrypoint server] in
      if Stat os binPath then Ok binPath
      else Err (EntrypointNotFound (Name server))
  | ServerTypeBinary =>
      let binPath := Join os [installDir; Entrypoint server] in
      if Stat os binPath then Ok binPath
      else Err (EntrypointNotFound (Name server))
  | ServerTypeOther tag => Err (UnknownServerType tag)
  end.

(** ** Launch *)

(** The test that opens [Launch]: is the registered entry for this
    name in state Running? *)
Definition already_running (l : Launcher) (server : Server) : bool :=
  match procs l !! Name server with
  | Some p =>
      match heap l !! p with
      | Some proc => State_eqb (PState proc) StateRunning
      | None => false
      end
  | None => false
  end.

Definition versionRequirement (server : Server) : string :=
  match Type_ server with
  | ServerTypeNode => Node (Runtime server)
  | ServerTypePython => Python (Runtime server)
  | _ => EmptyString
  end.

(** [args := append(server.Args, opts.Args...)] *)
Definition assembleArgs (server : Server) (opts : LaunchOptions) : list string :=
  (Args server ++ OptArgs opts)%list.

(** The [switch] that builds the command; [None] is the [nil] command
    that an unknown server type would leave. *)
Definition buildCommand (os : OS) (server : Server) (rt : DetectedRuntime)
    (entrypoint : string) (args : list string) : option Cmd :=
  match Type_ server with
  | ServerTypeNode =>
      if String.eqb (Ext os entrypoint) ".js"
      then Some (CommandContext (RtPath rt) (entrypoint :: args))
      else Some (CommandContext entrypoint args)
  | ServerTypePython => Some (CommandContext entrypoint args)
  | ServerTypeBinary => Some (CommandContext entrypoint args)
  | ServerTypeOther _ => None
  end.

Definition env_entry (kv : string * string) : string :=
  (fst kv ++ "=" ++ snd kv)%string.

Definition commandEnv (os : OS) (server : Server) (opts : LaunchOptions) : list string :=
  (Environ os ++ map env_entry (Env server) ++ map env_entry (OptEnv opts))%list.

Definition commandDir (opts : LaunchOptions) (installDir : string) : string :=
  if String.eqb (WorkDir opts) EmptyString then installDir else WorkDir opts.

Definition cmd_with_env_dir (env : list string) (dir : string) (c : Cmd) : Cmd :=
  mkCmd (CmdPath c) (CmdArgs c) env dir (CmdStdin c) (CmdStdout c) (CmdStderr c).

Definition cmd_with_Stdin (s : Stream) (c : Cmd) : Cmd :=
  mkCmd (CmdPath c) (CmdArgs c) (CmdEnv c) (CmdDir c) (Some s) (CmdStdout c) (CmdStderr c).

Definition cmd_with_Stdout (s : Stream) (c : Cmd) : Cmd :=
  mkCmd (CmdPath c) (CmdArgs c) (CmdEnv c) (CmdDir c) (CmdStdin c) (Some s) (CmdStderr c).

Definition cmd_with_Stderr (s : Stream) (c : Cmd) : Cmd :=
  mkCmd (CmdPath c) (CmdArgs c) (CmdEnv c) (CmdDir c) (CmdStdin c) (CmdStdout c) (Some s).

(** The three blocks that connect the standard streams.  Each gives
    the process as it stands and the error, if the pipe call failed. *)
Definition connectStdin (os : OS) (opts : LaunchOptions) (proc : Process)
  : Process * option LaunchError :=
  match OptStdin opts with
  | Some s => (set_Cmd (cmd_with_Stdin s (PCmd proc)) proc, None)
  | None =>
      match StdinPipe os with
      | Err e => (proc, Some (StdinPipeFailed e))
      | Ok (child, mine) =>
          (set_Stdin mine (set_Cmd (cmd_with_Stdin child (PCmd proc)) proc), None)
      end
  end.

Definition connectStdout (os : OS) (opts : LaunchOptions) (proc : Process)
  : Process * option LaunchError :=
  match OptStdout opts with
  | Some s => (set_Cmd (cmd_with_Stdout s (PCmd proc)) proc, None)
  | None =>
      match StdoutPipe os with
      | Err e => (proc, Some (StdoutPipeFailed e))
      | Ok (child, mine) =>
          (set_Stdout mine (set_Cmd (cmd_with_Stdout child (PCmd proc)) proc), None)
      end
  end.

Definition connectStderr (os : OS) (opts : LaunchOptions) (proc : Process)
  : Process * option LaunchError :=
  match OptStderr opts with
  | Some s => (set_Cmd (cmd_with_Stderr s (PCmd proc)) proc, None)
  | None =>
      match StderrPipe os with
      | Err e => (proc, Some (StderrPipeFailed e))
      | Ok (child, mine) =>
          (set_Stderr mine (set_Cmd (cmd_with_Stderr child (PCmd proc)) proc), None)
      end
  end.

(** The launcher with one more [Process] object on its heap. *)
Definition allocate (proc : Process) (l : Launcher) : Launcher :=
  mkLauncher (procs l) (heap l ++ [proc])%list (trace l).

(** [cmd.Start()] and what follows it.  [addr] is the address of
    [proc]. *)
Definition startProcess (os : OS) (server : Server) (proc : Process) (l : Launcher)
  : result nat LaunchError * Launcher :=
  let addr := length (heap l) in
  match Start os with
  | Some e =>
      let proc := set_Error (StartError e) (set_State StateFailed proc) in
      (Err (StartFailed e), allocate proc l)
  | None =>
      let proc := set_State StateRunning (set_StartTime (Now os) proc) in
      (Ok addr,
       mkLauncher (<[Name server := addr]> (procs l))
                  (heap l ++ [proc])%list
                  (trace l ++ [EvSpawn addr])%list)
  end.

(** [Launch] from the [Process] object on: the streams are connected
    and the process is started. *)
Definition connectAndStart (os : OS) (server : Server) (opts : LaunchOptions)
    (l : Launcher) (proc : Process) : result nat LaunchError * Launcher :=
  let '(proc, err) := connectStdin os opts proc in
  match err with
  | Some e => (Err e, allocate proc l)
  | None =>
      let '(proc, err) := connectStdout os opts proc in
      match err with
      | Some e => (Err e, allocate proc l)
      | None =>
          let '(proc, err) := connectStderr os opts proc in
          match err with
          | Some e => (Err e, allocate proc l)
          | None => startProcess os server proc l
          end
      end
  end.

(** [Launch] from the runtime validation on, that is, once the test
    for a running entry has passed.  The result is the address of the
    new [Process] or the error. *)
Definition Launch_locked (os : OS) (server : Server) (opts : LaunchOptions)
    (l : Launcher) : result nat LaunchError * Launcher :=
  match DetectForServer os server with
  | Err e => (Err (RuntimeDetectionFailed e), l)
  | Ok rt =>
      let versionReq := versionRequirement server in
      if negb (String.eqb versionReq EmptyString)
         && negb (Runtime.MeetsRequirement (RtVersion rt) versionReq)
      then (Err (RuntimeVersionUnmet (RtVersion rt) versionReq), l)
      else
        let installDir := ServerInstallPath os (Name server) in
        match resolveEntrypoint os server installDir with
        | Err e => (Err e, l)
        | Ok entrypoint =>
            let args := assembleArgs server opts in
            match buildCommand os server rt entrypoint args with
            | None => (Err NilCommand, l)
            | Some cmd =>
                let cmd := cmd_with_env_dir (commandEnv os server opts)
                                            (commandDir opts installDir) cmd in
                let proc := mkProcess server cmd StateStarting 0 0 0 None None None None in
                connectAndStart os server opts l proc
            end
        end
  end.

(** [Launch], run from start to end with nothing in between. *)
Definition Launch (os : OS) (server : Server) (opts : LaunchOptions) (l : Launcher)
  : result nat LaunchError * Launcher :=
  if already_running l server then (Err (AlreadyRunning (Name server)), l)
  else Launch_locked os server opts l.

(** ** The watcher *)

(** The part of [monitorProcess] that follows [Cmd.Wait]: [r] is what
    the wait returned and [now] the time read. *)
Definition monitorProcess_record (r : WaitResult) (now : Z) (proc : Process) : Process :=
  let proc := set_StopTime now proc in
  match r with
  | WaitSuccess => set_State StateStopped (set_ExitCode 0 proc)
  | _ =>
      let proc := match r with
                  | WaitExitError code => set_ExitCode code proc
                  | _ => proc
                  end in
      let proc := set_Error (WaitError r) proc in
      if negb (State_eqb (PState proc) StateStopping)
         && negb (State_eqb (PState proc) StateStopped)
      then set_State StateFailed proc
      else set_State StateStopped proc
  end.

(** ** Stop *)

(** The end of [Stop]: the stop time and the final state. *)
Definition Stop_record (now : Z) (proc : Process) : Process :=
  set_State StateStopped (set_StopTime now proc).

Definition update_process (f : Process -> Process) (p : nat) (l : Launcher) : Launcher :=
  mkLauncher (procs l) (alter f p (heap l)) (trace l).

Definition record_event (e : OSEvent) (l : Launcher) : Launcher :=
  mkLauncher (procs l) (heap l) (trace l ++ [e])%list.

(** ** Calls and goroutines running together *)

(** How a finished call or goroutine ended. *)
Inductive Outcome : Type :=
| Launched (p : nat)
| LaunchFailed (e : LaunchError)
| Stopped_
| StopFailed (e : StopError)
| WaitOver
| WatcherOver.

(** A call or goroutine, by the point it has reached.
    - [CallLaunch]: a [Launch] call that has not taken [l.mu] yet;
      [LaunchLocked]: it holds [l.mu] and found no running entry.
    - [CallStop]: a [Stop] call before its lookup; [StopFound]: it has
      the entry's address; [StopMarked]: it set the state Stopping;
      [StopSelect]: it sent the signal, started goroutine [waiter] and
      sits in the [select].
    - [StopWaiter]: the goroutine of [Stop] before [Cmd.Wait];
      [StopWaiting]: inside [Cmd.Wait].
    - [Watcher]: [monitorProcess] before [Cmd.Wait]; [Watching]: inside
      [Cmd.Wait]. *)
Inductive Thread : Type :=
| CallLaunch (server : Server) (opts : LaunchOptions)
| LaunchLocked (server : Server) (opts : LaunchOptions)
| CallStop (serverName : string)
| StopFound (serverName : string) (p : nat)
| StopMarked (p : nat)
| StopSelect (p : nat) (waiter : nat)
| StopWaiter (p : nat)
| StopWaiting (p : nat)
| Watcher (p : nat)
| Watching (p : nat)
| Finished (o : Outcome).

(** The launcher, the thread that holds [l.mu] if one does, and the
    calls and goroutines, each named by its index. *)
Record World : Type := mkWorld {
  launcher : Launcher;
  mu : option nat;
  threads : list Thread
}.

(** What the surroundings decide at a step: nothing ([Proceed]), the
    machine a [Launch] finds, the return of a [Cmd.Wait], or which case
    of the [select] in [Stop] fires. *)
Inductive Choice : Type :=
| Proceed
| OnMachine (os : OS)
| WaitReturned (r : WaitResult) (now : Z)
| DoneClosed (now : Z)
| TimedOut (now : Z).

Definition outcome_of_launch (r : result nat LaunchError) : Outcome :=
  match r with
  | Ok p => Launched p
  | Err e => LaunchFailed e
  end.

Definition spawned_by_launch (r : result nat LaunchError) : list Thread :=
  match r with
  | Ok p => [Watcher p]
  | Err _ => []
  end.

Definition is_free (m : option nat) : bool :=
  match m with
  | None => true
  | Some _ => false
  end.

(** One step of thread [k].  [None]: the thread cannot take this step
    now (it waits for [l.mu] or for its goroutine, or the choice is not
    one it can meet).  The sections that run under a lock are single
    steps: all of [Launch] after the test under [l.mu], the lookup of
    [Stop] under [l.mu], and under the entry's lock the test and mark of
    [Stop], its final record, and the record of the watcher. *)
Definition step (k : nat) (c : Choice) (w : World) : option World :=
  let l := launcher w in
  let ths := threads w in
  match ths !! k with
  | None => None
  | Some th =>
      match th, c with
      | CallLaunch server opts, Proceed =>
          if negb (is_free (mu w)) then None
          else if already_running l server
          then Some (mkWorld l None
                       (<[k := Finished (LaunchFailed (AlreadyRunning (Name server)))]> ths))
          else Some (mkWorld l (Some k) (<[k := LaunchLocked server opts]> ths))
      | LaunchLocked server opts, OnMachine os =>
          let '(r, l') := Launch_locked os server opts l in
          Some (mkWorld l' None
                  (<[k := Finished (outcome_of_launch r)]> ths ++ spawned_by_launch r)%list)
      | CallStop serverName, Proceed =>
          if negb (is_free (mu w)) then None
          else match procs l !! serverName with
               | None => Some (mkWorld l None
                                 (<[k := Finished (StopFailed (NotRunning serverName))]> ths))
               | Some p => Some (mkWorld l None (<[k := StopFound serverName p]> ths))
               end
      | StopFound serverName p, Proceed =>
          match heap l !! p with
          | None => None
          | Some proc =>
              if State_eqb (PState proc) StateRunning
              then Some (mkWorld (update_process (set_State StateStopping) p l) (mu w)
                           (<[k := StopMarked p]> ths))
              else Some (mkWorld l (mu w)
                           (<[k := Finished (StopFailed (NotRunningState (PState proc)))]> ths))
          end
      | StopMarked p, Proceed =>
          Some (mkWorld (record_event (EvSignalTERM p) l) (mu w)
                  (<[k := StopSelect p (length ths)]> ths ++ [StopWaiter p])%list)
      | StopWaiter p, Proceed =>
          Some (mkWorld (record_event (EvWait p ByStop) l) (mu w)
                  (<[k := StopWaiting p]> ths))
      | StopWaiting p, WaitReturned _ _ =>
          Some (mkWorld l (mu w) (<[k := Finished WaitOver]> ths))
      | StopSelect p waiter, DoneClosed now =>
          match ths !! waiter with
          | Some (Finished WaitOver) =>
              Some (mkWorld (update_process (Stop_record now) p l) (mu w)
                      (<[k := Finished Stopped_]> ths))
          | _ => None
          end
      | StopSelect p waiter, TimedOut now =>
          Some (mkWorld (update_process (Stop_record now) p (record_event (EvKill p) l))
                  (mu w) (<[k := Finished Stopped_]> ths))
      | Watcher p, Proceed =>
          Some (mkWorld (record_event (EvWait p ByWatcher) l) (mu w)
                  (<[k := Watching p]> ths))
      | Watching p, WaitReturned r now =>
          Some (mkWorld (update_process (monitorProcess_record r now) p l) (mu w)
                  (<[k := Finished WatcherOver]> ths))
      | _, _ => None
      end
  end.

(** A schedule names, step by step, the thread that moves and the
    choice it meets. *)
Fixpoint run (schedule : list (nat * Choice)) (w : World) : option World :=
  match schedule with
  | [] => Some w
  | (k, c) :: rest =>
      match step k c w with
      | Some w' => run rest w'
      | None => None
      end
  end.

(** A fresh launcher and the calls made on it. *)
Definition is_call (th : Thread) : bool :=
  match th with
  | CallLaunch _ _ | CallStop _ => true
  | _ => false
  end.

Definition initial (calls : list Thread) : World :=
  mkWorld NewLauncher None calls.

Definition reachable (w : World) : Prop :=
  exists calls schedule,
    forallb is_call calls = true /\ run schedule (initial calls) = Some w.

(** How often [Cmd.Wait] was called for the process at [p], in all
    and by one kind of caller. *)
Definition is_wait_on (p : nat) (e : OSEvent) : bool :=
  match e with
  | EvWait q _ => Nat.eqb p q
  | _ => false
  end.

Definition is_wait_by (who : Waiter) (p : nat) (e : OSEvent) : bool :=
  match e, who with
  | EvWait q ByWatcher, ByWatcher => Nat.eqb p q
  | EvWait q ByStop, ByStop => Nat.eqb p q
  | _, _ => false
  end.

Definition wait_calls (p : nat) (l : Launcher) : nat :=
  length (List.filter (is_wait_on p) (trace l)).

Definition wait_calls_by (who : Waiter) (p : nat) (l : Launcher) : nat :=
  length (List.filter (is_wait_by who p) (trace l)).

(** ** What holds of every reachable world *)

(** Threads that have still to call [Cmd.Wait] for the process at [p]:
    its watcher before the call, and a [Stop] that has marked the
    process or whose goroutine has not made the call yet. *)
Definition watcher_due (p : nat) (th : Thread) : nat :=
  match th with
  | Watcher q => if Nat.eqb p q then 1 else 0
  | _ => 0
  end.

Definition stop_due (p : nat) (th : Thread) : nat :=
  match th with
  | StopMarked q | StopWaiter q => if Nat.eqb p q then 1 else 0
  | _ => 0
  end.

Definition due (f : Thread -> nat) (ths : list Thread) : nat :=
  fold_right (fun th n => f th + n) 0 ths.

(** The parts of the invariant that speak of the launcher alone: a
    Running process is the registered entry of its name; no process of
    a name is Running. *)
Definition registered_ok (l : Launcher) : Prop :=
  forall (p : nat) (proc : Process),
    heap l !! p = Some proc ->
    PState proc = StateRunning ->
    procs l !! Name (PServer proc) = Some p.

Definition none_running (l : Launcher) (name : string) : Prop :=
  forall (p : nat) (proc : Process),
    heap l !! p = Some proc ->
    Name (PServer proc) = name ->
    PState proc <> StateRunning.

(** A change of a [Process] that keeps its server and does not make
    it Running. *)
Definition quiet (f : Process -> Process) : Prop :=
  forall proc : Process,
    PServer (f proc) = PServer proc /\ PState (f proc) <> StateRunning.

(** How many waits [Stop] may have made or owe for the process at
    [p]: none while it is Running or before it exists, one after. *)
Definition stop_bound (l : Launcher) (p : nat) : nat :=
  match heap l !! p with
  | Some proc => if State_eqb (PState proc) StateRunning then 0 else 1
  | None => 0
  end.

Record invariant (w : World) : Prop := mkInvariant {
  (** a running process is the registered entry of its name *)
  running_registered : registered_ok (launcher w);
  (** a [Launch] past its test holds [l.mu] *)
  locked_holds_mu :
    forall (k : nat) (server : Server) (opts : LaunchOptions),
      threads w !! k = Some (LaunchLocked server opts) -> mu w = Some k;
  (** and no process of its name is running *)
  locked_none_running :
    forall (k : nat) (server : Server) (opts : LaunchOptions),
      threads w !! k = Some (LaunchLocked server opts) ->
      none_running (launcher w) (Name server);
  (** the watcher of a process calls [Cmd.Wait] once, and there is no
      watcher for an address not yet in use *)
  watcher_waits_once :
    forall p : nat,
      due (watcher_due p) (threads w) + wait_calls_by ByWatcher p (launcher w)
      <= (if decide (p < length (heap (launcher w))) then 1 else 0);
  (** [Stop] calls [Cmd.Wait] for a process once at most, and not
      while the process is in state Running *)
  stop_waits_once :
    forall p : nat,
      due (stop_due p) (threads w) + wait_calls_by ByStop p (launcher w)
      <= stop_bound (launcher w) p
}.

(** The ways [Launch_locked] ends: it gives up before a [Process] is
    made; a pipe call fails and the [Process], still Starting, is
    dropped; [cmd.Start] fails and the [Process] is marked Failed and
    dropped; or the process is started and registered. *)
Definition gives_up_early (e : LaunchError) : bool :=
  match e with
  | RuntimeDetectionFailed _ | RuntimeVersionUnmet _ _ | EntrypointNotFound _ => true
  | _ => false
  end.

Definition is_pipe_failure (e : LaunchError) : bool :=
  match e with
  | StdinPipeFailed _ | StdoutPipeFailed _ | StderrPipeFailed _ => true
  | _ => false
  end.

Inductive launch_outcome (server : Server) (l : Launcher)
  : result nat LaunchError -> Launcher -> Prop :=
| launch_gave_up (e : LaunchError) :
    gives_up_early e = true ->
    launch_outcome server l (Err e) l
| launch_pipe_failed (e : LaunchError) (proc : Process) :
    is_pipe_failure e = true ->
    PServer proc = server -> PState proc = StateStarting -> PError proc = None ->
    launch_outcome server l (Err e) (allocate proc l)
| launch_start_failed (reason : string) (proc : Process) :
    PServer proc = server -> PState proc = StateFailed ->
    PError proc = Some (StartError reason) ->
    launch_outcome server l (Err (StartFailed reason)) (allocate proc l)
| launch_started (proc : Process) :
    PServer proc = server -> PState proc = StateRunning ->
    launch_outcome server l (Ok (length (heap l)))
      (mkLauncher (<[Name server := length (heap l)]> (procs l))
                  (heap l ++ [proc])%list
                  (trace l ++ [EvSpawn (length (heap l))])%list).

(** Connecting a stream leaves the server, the state, the error and
    the command's name and arguments as they were. *)
Definition same_identity (proc proc' : Process) : Prop :=
  PServer proc' = PServer proc /\ PState proc' = PState proc
  /\ PError proc' = PError proc
  /\ CmdPath (PCmd proc') = CmdPath (PCmd proc)
  /\ CmdArgs (PCmd proc') = CmdArgs (PCmd proc).

(** The arguments a command is given: [CmdArgs] without the command
    name that heads it. *)
Definition arguments (c : Cmd) : list string := tl (CmdArgs c).

(** Is the entrypoint a script that [Launch] hands to the interpreter? *)
Definition runs_through_interpreter (os : OS) (server : Server) (entrypoint : string)
  : bool :=
  match Type_ server with
  | ServerTypeNode => String.eqb (Ext os entrypoint) ".js"
  | _ => false
  end.

(** ** A sample machine and server *)

(** [filepath.Ext] where the separator is the slash: the suffix from
    the last dot of the last path element on.  [ext_scan] walks the path
    from its end; [seen] is the suffix walked over so far. *)
Fixpoint ext_scan (reversed : list ascii) (seen : string) : string :=
  match reversed with
  | [] => EmptyString
  | c :: before =>
      if Ascii.eqb c "/"%char then EmptyString
      else if Ascii.eqb c "."%char then String c seen
      else ext_scan before (String c seen)
  end.

Definition sample_Ext (path : string) : string :=
  ext_scan (rev (list_ascii_of_string path)) EmptyString.

(** [filepath.Join] on elements that are already clean: the non-empty
    elements with slashes between them. *)
Fixpoint sample_Join (elems : list string) : string :=
  match elems with
  | [] => EmptyString
  | e :: rest =>
      if String.eqb e EmptyString then sample_Join rest
      else
        let tail := sample_Join rest in
        if String.eqb tail EmptyString then e else (e ++ "/" ++ tail)%string
  end.

(** A machine with node 20.11.0 on which the files in [files] exist and
    every call succeeds. *)
Definition sample_os (files : list string) : OS :=
  mkOS (Ok (mkRuntime "node" "/usr/bin/node" "20.11.0"))
       (Err "python not found in PATH")
       "/home/u/.mcp-adapter/servers"
       sample_Join sample_Ext
       (fun path => existsb (String.eqb path) files)
       ["HOME=/home/u"]
       (Ok (3, 4)) (Ok (5, 6)) (Ok (7, 8))
       None 1000.

Definition sample_server : Server :=
  mkServer "filesystem" ServerTypeNode "@modelcontextprotocol/server-filesystem"
           "index" (mkRuntimeRequirements ">=18" EmptyString)
           ["--root"] [("LOG", "info")].

Definition sample_opts : LaunchOptions :=
  mkLaunchOptions ["/tmp"] [] EmptyString None None None.

(** A [Launch] of the sample server and a [Stop] of it, run as far as
    the two calls of [Cmd.Wait]: the launch, the watcher's wait, then
    the lookup, the mark and the signal of [Stop] and the wait of its
    goroutine.  [sample_launched] stops after the launch. *)
Definition sample_calls : list Thread :=
  [CallLaunch sample_server sample_opts; CallStop "filesystem"].

Definition sample_schedule (os : OS) : list (nat * Choice) :=
  [(0, Proceed); (0, OnMachine os); (2, Proceed);
   (1, Proceed); (1, Proceed); (1, Proceed); (3, Proceed)].

Definition run_or_initial (schedule : list (nat * Choice)) (calls : list Thread)
  : World :=
  match run schedule (initial calls) with
  | Some w => w
  | None => initial calls
  end.

Definition sample_js : string :=
  "/home/u/.mcp-adapter/servers/filesystem/node_modules/@modelcontextprotocol/server-filesystem/dist/index.js".

Definition sample_world : World :=
  run_or_initial (sample_schedule (sample_os [sample_js])) sample_calls.

Definition sample_launched : World :=
  run_or_initial (firstn 2 (sample_schedule (sample_os [sample_js]))) sample_calls.

(** Two [Launch] calls for the sample server; the first runs to its
    end, then the second begins. *)
Definition twin_calls : list Thread :=
  [CallLaunch sample_server sample_opts; CallLaunch sample_server sample_opts].

Definition twin_world : World :=
  run_or_initial [(0, Proceed); (0, OnMachine (sample_os [sample_js])); (1, Proceed)]
                 twin_calls.

End Launcher.

(* ===================================================================== *)
(** * Properties of the version matcher *)
(* ===================================================================== *)

Section RuntimeFacts.

Import Runtime.
Local Open Scope Z_scope.

Lemma is_digit_value_range (c : ascii) :
  is_digit c = true -> 0 <= digit_value c <= 9.
Proof.
  unfold is_digit, digit_value. intros H.
  apply andb_true_iff in H as [H1 H2].
  apply Nat.leb_le in H1. apply Nat.leb_le in H2. lia.
Qed.

Lemma decimal_from_nonneg (s : string) :
  forall acc, 0 <= acc -> all_digits s = true -> 0 <= decimal_from acc s.
Proof.
  induction s as [|c r IH]; intros acc Hacc Hd; simpl in *; [lia|].
  apply andb_true_iff in Hd as [Hc Hr].
  apply IH; [|exact Hr].
  pose proof (is_digit_value_range c Hc). lia.
Qed.

Lemma leading_digits_all_digits (p : string) : all_digits (leading_digits p) = true.
Proof.
  induction p as [|c r IH]; simpl; [reflexivity|].
  destruct (is_digit c) eqn:Hc; simpl; [|reflexivity].
  rewrite Hc. exact IH.
Qed.

Lemma parseComponent_nonneg (p : string) : 0 <= parseComponent p.
Proof.
  unfold parseComponent.
  destruct (String.eqb (leading_digits p) EmptyString); [lia|].
  unfold Atoi, decimal, maxInt.
  pose proof (decimal_from_nonneg (leading_digits p) 0 ltac:(lia)
                (leading_digits_all_digits p)).
  apply Z.min_glb; lia.
Qed.

Lemma parseVersion_nonneg (v : string) : Forall (fun x => 0 <= x) (parseVersion v).
Proof.
  unfold parseVersion. apply List.Forall_forall. intros x Hx.
  apply in_map_iff in Hx as [p [<- _]]. apply parseComponent_nonneg.
Qed.

(** The leading digit run of [d ++ s] is [d] when [d] is made of digits
    and [s] does not open with one. *)
Lemma leading_digits_app (d s : string) :
  all_digits d = true -> starts_with_digit s = false ->
  leading_digits (d ++ s) = d.
Proof.
  intros Hd Hs. induction d as [|c r IH]; simpl in *.
  - destruct s as [|c r]; simpl in *; [reflexivity|]. now rewrite Hs.
  - apply andb_true_iff in Hd as [Hc Hr]. rewrite Hc. f_equal. auto.
Qed.

Lemma parseComponent_app (d s : string) :
  all_digits d = true -> starts_with_digit s = false ->
  parseComponent (d ++ s) =
  if String.eqb d EmptyString then 0 else Z.min (decimal d) maxInt.
Proof.
  intros Hd Hs. unfold parseComponent. now rewrite leading_digits_app.
Qed.

Lemma Split_dot_nonempty (v : string) : Split_dot v <> [].
Proof.
  destruct v as [|c r]; simpl; [discriminate|].
  destruct (Ascii.eqb c "."); [discriminate|].
  destruct (Split_dot r); discriminate.
Qed.

Lemma Split_dot_no_dot (s : string) : has_dot s = false -> Split_dot s = [s].
Proof.
  induction s as [|c r IH]; simpl; [reflexivity|].
  destruct (Ascii.eqb c "."); [discriminate|].
  intros H. now rewrite IH.
Qed.

Lemma Split_dot_app_dot (s rest : string) :
  has_dot s = false -> Split_dot (s ++ "." ++ rest) = s :: Split_dot rest.
Proof.
  induction s as [|c r IH]; simpl; [reflexivity|].
  destruct (Ascii.eqb c "."); [discriminate|].
  intros H. simpl in IH. now rewrite IH.
Qed.

Lemma Split_dot_join_dots (components : list string) :
  components <> [] ->
  Forall (fun c => has_dot c = false) components ->
  Split_dot (join_dots components) = components.
Proof.
  induction components as [|c rest IH]; [congruence|].
  intros _ HF. inversion HF as [|? ? Hc Hrest]; subst.
  destruct rest as [|c' rest'].
  - simpl. now apply Split_dot_no_dot.
  - change (join_dots (c :: c' :: rest')) with (c ++ "." ++ join_dots (c' :: rest'))%string.
    rewrite Split_dot_app_dot by exact Hc.
    f_equal. apply IH; [discriminate|exact Hrest].
Qed.

Lemma has_dot_app (a b : string) :
  has_dot (a ++ b) = has_dot a || has_dot b.
Proof.
  induction a as [|c r IH]; simpl; [reflexivity|].
  destruct (Ascii.eqb c "."); [reflexivity|exact IH].
Qed.

Lemma all_digits_no_dot (d : string) : all_digits d = true -> has_dot d = false.
Proof.
  induction d as [|c r IH]; simpl; [reflexivity|].
  intros H. apply andb_true_iff in H as [Hc Hr].
  destruct (Ascii.eqb c ".") eqn:E; [|auto].
  apply Ascii.eqb_eq in E. subst c. discriminate.
Qed.

(** *** The comparison loop against the lexicographic order *)

Lemma compare_from_ext (a a' b b' : list Z) :
  (forall i, nth i a 0 = nth i a' 0) ->
  (forall i, nth i b 0 = nth i b' 0) ->
  forall n i, compare_from a b i n = compare_from a' b' i n.
Proof.
  intros Ha Hb. induction n as [|n IH]; intros i; simpl; [reflexivity|].
  rewrite Ha, Hb, IH. reflexivity.
Qed.

Lemma compare_from_cons (x y : Z) (a b : list Z) :
  forall n i, compare_from (x :: a) (y :: b) (S i) n = compare_from a b i n.
Proof.
  induction n as [|n IH]; intros i; simpl; [reflexivity|].
  rewrite IH. reflexivity.
Qed.

Lemma compare_from_lex (a : list Z) :
  forall b, length a = length b ->
  compare_from a b 0 (length a) = sign_of (lex_compare a b).
Proof.
  induction a as [|x a IH]; intros [|y b] Hlen; simpl in *; try discriminate;
    [reflexivity|].
  rewrite compare_from_cons.
  destruct (Z.compare_spec x y) as [Heq|Hlt|Hgt].
  - subst. rewrite Z.ltb_irrefl, Z.gtb_ltb, Z.ltb_irrefl.
    apply IH. lia.
  - apply Z.ltb_lt in Hlt. now rewrite Hlt.
  - assert ((x <? y) = false) as -> by (apply Z.ltb_ge; lia).
    assert ((x >? y) = true) as -> by (rewrite Z.gtb_ltb; apply Z.ltb_lt; lia).
    reflexivity.
Qed.

Lemma nth_zero_pad (n : nat) (t : list Z) (i : nat) :
  nth i (zero_pad n t) 0 = nth i t 0.
Proof.
  unfold zero_pad. destruct (Nat.lt_ge_cases i (length t)) as [Hlt|Hge].
  - now rewrite app_nth1.
  - rewrite app_nth2 by exact Hge. rewrite nth_repeat.
    now rewrite nth_overflow.
Qed.

Lemma length_zero_pad (n : nat) (t : list Z) :
  (length t <= n)%nat -> length (zero_pad n t) = n.
Proof.
  intros H. unfold zero_pad. rewrite length_app, repeat_length. lia.
Qed.

(** The loop computes the sign of the lexicographic comparison of the
    two tuples padded with zeros to the longer length. *)
Lemma compareVersionParts_lex (a b : list Z) :
  let n := Nat.max (length a) (length b) in
  compareVersionParts a b = sign_of (lex_compare (zero_pad n a) (zero_pad n b)).
Proof.
  intros n. unfold compareVersionParts.
  assert ((if (length a <? length b)%nat then length b else length a) = n) as ->.
  { subst n. destruct (Nat.ltb_spec (length a) (length b)); lia. }
  rewrite (compare_from_ext a (zero_pad n a) b (zero_pad n b))
    by (intros; now rewrite nth_zero_pad).
  assert (length (zero_pad n a) = n) as Ha by (apply length_zero_pad; lia).
  assert (length (zero_pad n b) = n) as Hb by (apply length_zero_pad; lia).
  rewrite <- Ha at 3. apply compare_from_lex. congruence.
Qed.

Lemma compareVersionParts_ge (a b : list Z) :
  (compareVersionParts a b >=? 0) = true <-> tuple_ge a b.
Proof.
  unfold tuple_ge. rewrite compareVersionParts_lex. cbv zeta.
  destruct (lex_compare _ _); simpl; split; intros H; try reflexivity;
    try discriminate; congruence.
Qed.

(** A tuple of non-negative components is never below a tuple of zeros. *)
Lemma lex_compare_zeros (a : list Z) :
  Forall (fun x => 0 <= x) a ->
  lex_compare a (repeat 0 (length a)) <> Lt.
Proof.
  induction 1 as [|x a Hx Ha IH]; simpl; [discriminate|].
  destruct (Z.compare_spec x 0); try discriminate; [apply IH|lia].
Qed.

Lemma Forall_nonneg_zero_pad (n : nat) (a : list Z) :
  Forall (fun x => 0 <= x) a -> Forall (fun x => 0 <= x) (zero_pad n a).
Proof.
  intros H. unfold zero_pad. apply Forall_app; split; [exact H|].
  apply List.Forall_forall. intros x Hx. apply repeat_spec in Hx. lia.
Qed.

Lemma tuple_ge_zeros (a z : list Z) :
  Forall (fun x => 0 <= x) a -> Forall (fun x => x = 0) z -> tuple_ge a z.
Proof.
  intros Ha Hz. unfold tuple_ge. cbv zeta.
  set (n := Nat.max (length a) (length z)).
  assert (zero_pad n z = repeat 0 n) as ->.
  { unfold zero_pad.
    assert (z = repeat 0 (length z)) as Hrep.
    { clear -Hz. induction Hz as [|x z Hx Hz IH]; simpl; [reflexivity|].
      subst x. f_equal. exact IH. }
    rewrite Hrep at 1. rewrite <- repeat_app. f_equal. lia. }
  assert (length (zero_pad n a) = n) as Hlen by (apply length_zero_pad; lia).
  rewrite <- Hlen at 2.
  apply lex_compare_zeros. now apply Forall_nonneg_zero_pad.
Qed.

(** *** How the pattern splits a constraint *)

Lemma rest_matches_true (rest : string) :
  rest <> EmptyString -> has_LF rest = false -> rest_matches rest = true.
Proof.
  intros Hne HLF. unfold rest_matches. rewrite HLF.
  destruct (String.eqb_spec rest EmptyString); [contradiction|reflexivity].
Qed.

Lemma try_operators_split_None (ops : list string) (c : string) :
  split_operator_among ops c = None -> try_operators ops c = None.
Proof.
  induction ops as [|op ops IH]; simpl; [reflexivity|].
  destruct (strip_prefix op c); [discriminate|exact IH].
Qed.

Lemma try_operators_split_Some (ops : list string) (c op rest : string) :
  split_operator_among ops c = Some (op, rest) ->
  rest_matches rest = true ->
  try_operators ops c = Some (op, rest).
Proof.
  induction ops as [|o ops IH]; simpl; [discriminate|].
  destruct (strip_prefix o c) as [r|]; [|exact IH].
  intros [= -> ->] ->. reflexivity.
Qed.

Lemma split_operator_among_In (ops : list string) (c op rest : string) :
  split_operator_among ops c = Some (op, rest) -> In op ops.
Proof.
  induction ops as [|o ops IH]; simpl; [discriminate|].
  destruct (strip_prefix o c); [intros [= -> _]; now left|right; auto].
Qed.

Lemma has_LF_app (a b : string) : has_LF (a ++ b) = has_LF a || has_LF b.
Proof.
  induction a as [|c r IH]; simpl; [reflexivity|].
  destruct (Ascii.eqb c LF); [reflexivity|exact IH].
Qed.

Lemma strip_prefix_app (p s rest : string) :
  strip_prefix p s = Some rest -> s = (p ++ rest)%string.
Proof.
  revert s. induction p as [|a p IH]; intros s; simpl.
  - now intros [= ->].
  - destruct s as [|b s]; [discriminate|].
    destruct (Ascii.eqb_spec a b); [|discriminate].
    subst. intros H. change (String b s = String b (p ++ rest)%string).
    f_equal. now apply IH.
Qed.

(** A constraint with a line feed in it matches the pattern nowhere. *)
Lemma FindStringSubmatch_LF (c : string) :
  has_LF c = true -> FindStringSubmatch c = None.
Proof.
  intros HLF. unfold FindStringSubmatch.
  assert (forall ops, Forall (fun op => has_LF op = false) ops ->
                      try_operators ops c = None) as Hops.
  { induction 1 as [|op ops Hop Hops IH]; simpl; [reflexivity|].
    destruct (strip_prefix op c) as [rest|] eqn:E; [|exact IH].
    apply strip_prefix_app in E. subst c.
    rewrite has_LF_app, Hop in HLF. simpl in HLF.
    unfold rest_matches. rewrite HLF, andb_false_r. exact IH. }
  rewrite Hops by (repeat constructor).
  unfold rest_matches. now rewrite HLF, andb_false_r.
Qed.

Lemma MeetsRequirement_operator (V c op rest : string) :
  split_operator c = Some (op, rest) ->
  rest <> EmptyString -> has_LF rest = false ->
  MeetsRequirement V c = compareVersions V op rest.
Proof.
  intros Hsplit Hne HLF. unfold MeetsRequirement, FindStringSubmatch.
  pose proof (split_operator_among_In _ _ _ _ Hsplit) as Hin.
  pose proof (strip_prefix_app op c rest) as Happ.
  rewrite (try_operators_split_Some operators c op rest Hsplit
             (rest_matches_true rest Hne HLF)).
  assert (c <> EmptyString /\ op <> EmptyString) as [Hc Hop].
  { simpl in Hin.
    destruct Hin as [<-|[<-|[<-|[<-|[<-|[]]]]]];
      (split; [|discriminate]); intros ->; unfold split_operator in Hsplit;
      simpl in Hsplit; discriminate. }
  destruct (String.eqb_spec c EmptyString); [contradiction|].
  destruct (String.eqb_spec op EmptyString); [contradiction|]. reflexivity.
Qed.

Lemma MeetsRequirement_bare (V c : string) :
  split_operator c = None -> c <> EmptyString -> has_LF c = false ->
  MeetsRequirement V c = compareVersions V ">=" c.
Proof.
  intros Hsplit Hne HLF. unfold MeetsRequirement, FindStringSubmatch.
  destruct (String.eqb_spec c EmptyString); [contradiction|].
  rewrite (try_operators_split_None operators c Hsplit).
  now rewrite (rest_matches_true c Hne HLF).
Qed.

Lemma parseComponent_no_digit (p : string) :
  starts_with_digit p = false -> parseComponent p = 0.
Proof.
  intros H. unfold parseComponent.
  destruct p as [|c r]; simpl in *; [reflexivity|]. now rewrite H.
Qed.

Lemma compareVersions_ge (V X : string) :
  compareVersions V ">=" X =
  (compareVersionParts (parseVersion V) (parseVersion X) >=? 0).
Proof. reflexivity. Qed.

(** C4: a constraint [>=X], and a constraint with no operator, holds of
    [V] exactly when the tuple parsed from [V], zero-padded to the
    longer length, is lexicographically at least the tuple parsed from
    [X]; [X] ranges over the non-empty strings without a line feed.  The
    two instances named by the claim are the last two conjuncts. *)
Theorem MeetsRequirement_ge_iff_tuple_ge :
  (forall V X : string,
      X <> EmptyString -> has_LF X = false ->
      MeetsRequirement V (">=" ++ X) = true
      <-> tuple_ge (parseVersion V) (parseVersion X))
  /\ (forall V c : string,
      split_operator c = None -> has_LF c = false ->
      MeetsRequirement V c = true
      <-> tuple_ge (parseVersion V) (parseVersion c))
  /\ MeetsRequirement "18.4.0" ">=18.5" = false
  /\ MeetsRequirement "18.5.0" ">=18.5" = true.
Proof.
  split; [|split; [|split; reflexivity]].
  - intros V X Hne HLF.
    rewrite (MeetsRequirement_operator V (">=" ++ X) ">=" X);
      [|reflexivity|exact Hne|exact HLF].
    rewrite compareVersions_ge. apply compareVersionParts_ge.
  - intros V c Hsplit HLF.
    destruct (String.eqb_spec c EmptyString) as [->|Hne].
    + split; [intros _|reflexivity].
      apply tuple_ge_zeros; [apply parseVersion_nonneg|].
      repeat constructor.
    + rewrite (MeetsRequirement_bare V c Hsplit Hne HLF).
      rewrite compareVersions_ge. apply compareVersionParts_ge.
Qed.

Lemma MeetsRequirement_ge_iff_tuple_ge_witness :
  "3.10" <> EmptyString /\ has_LF "3.10" = false /\
  (MeetsRequirement "3.9.0" (">=" ++ "3.10") = true
   <-> tuple_ge (parseVersion "3.9.0") (parseVersion "3.10")).
Proof.
  split; [discriminate|]. split; [reflexivity|].
  apply (proj1 MeetsRequirement_ge_iff_tuple_ge "3.9.0" "3.10");
    [discriminate|reflexivity].
Defined.

(** C5, as the code has it: [MeetsRequirement] always returns a boolean;
    it returns false when a line feed occurs in the constraint; and an
    operator followed by a non-empty rest is compared like any other
    constraint, whatever the rest is: when no component of the rest
    opens with a digit the rest reads as a tuple of zeros, which every
    version satisfies under [>=]. *)
Theorem MeetsRequirement_malformed_constraint :
  (forall V c : string,
      MeetsRequirement V c = true \/ MeetsRequirement V c = false)
  /\ (forall V c : string,
      has_LF c = true -> MeetsRequirement V c = false)
  /\ (forall V c op rest : string,
      split_operator c = Some (op, rest) ->
      rest <> EmptyString -> has_LF rest = false ->
      MeetsRequirement V c = compareVersions V op rest)
  /\ (forall V c rest : string,
      split_operator c = Some (">=", rest) ->
      rest <> EmptyString -> has_LF rest = false ->
      forallb (fun p => negb (starts_with_digit p)) (Split_dot rest) = true ->
      parseVersion rest = repeat 0 (length (Split_dot rest))
      /\ MeetsRequirement V c = true).
Proof.
  split; [|split; [|split]].
  - intros V c. destruct (MeetsRequirement V c); auto.
  - intros V c HLF. unfold MeetsRequirement.
    destruct (String.eqb_spec c EmptyString) as [->|_]; [discriminate|].
    now rewrite FindStringSubmatch_LF.
  - intros V c op rest. apply MeetsRequirement_operator.
  - intros V c rest Hsplit Hne HLF Hnd.
    assert (parseVersion rest = repeat 0 (length (Split_dot rest))) as Hz.
    { unfold parseVersion. induction (Split_dot rest) as [|p ps IH];
        simpl in *; [reflexivity|].
      apply andb_true_iff in Hnd as [Hp Hps].
      rewrite parseComponent_no_digit by (now apply negb_true_iff).
      f_equal. now apply IH. }
    split; [exact Hz|].
    rewrite (MeetsRequirement_operator V c ">=" rest Hsplit Hne HLF).
    rewrite compareVersions_ge. apply compareVersionParts_ge.
    apply tuple_ge_zeros; [apply parseVersion_nonneg|].
    rewrite Hz. apply List.Forall_forall. intros x Hx. now apply repeat_spec in Hx.
Qed.

Lemma MeetsRequirement_malformed_constraint_witness :
  split_operator ">=abc" = Some (">=", "abc") /\
  parseVersion "abc" = repeat 0 (length (Split_dot "abc")) /\
  MeetsRequirement "0.0.1" ">=abc" = true.
Proof.
  split; [reflexivity|].
  apply (proj2 (proj2 (proj2 MeetsRequirement_malformed_constraint))
           "0.0.1" ">=abc" "abc");
    [reflexivity|discriminate|reflexivity|reflexivity].
Defined.

(** C5 as stated fails: [>=abc] has an operator and no parseable version
    after it, and version [1] satisfies it. *)
Lemma malformed_constraint_satisfied :
  (malformed ">=abc" = true /\ MeetsRequirement "1" ">=abc" = true)
  /\ ~ (forall V c : string, malformed c = true -> MeetsRequirement V c = false).
Proof.
  split; [split; reflexivity|].
  intros H. specialize (H "1" ">=abc" eq_refl). discriminate H.
Qed.

(** C8: in a version string each dot-separated component is read by its
    leading run of digits, whatever follows the run being dropped, and a
    component that opens with no digit reads as 0.  A component is given
    as the pair of its digit run and the rest. *)
Theorem parseVersion_leading_digit_runs :
  (forall parts : list (string * string),
      parts <> [] ->
      Forall (fun ds => all_digits (fst ds) = true
                        /\ starts_with_digit (snd ds) = false
                        /\ has_dot (snd ds) = false) parts ->
      parseVersion (join_dots (map (fun ds => (fst ds ++ snd ds)%string) parts)) =
      map (fun ds => if String.eqb (fst ds) EmptyString then 0
                     else Z.min (decimal (fst ds)) maxInt) parts)
  /\ parseVersion "1.0.0-beta" = [1; 0; 0].
Proof.
  split; [|reflexivity].
  intros parts Hne HF. unfold parseVersion.
  rewrite Split_dot_join_dots.
  - rewrite map_map. apply map_ext_in. intros [d s] Hin.
    rewrite List.Forall_forall in HF. destruct (HF _ Hin) as (Hd & Hs & _).
    now apply parseComponent_app.
  - destruct parts; [congruence|discriminate].
  - rewrite List.Forall_forall in HF. apply List.Forall_forall.
    intros c Hc. apply in_map_iff in Hc as [[d s] [<- Hin]].
    destruct (HF _ Hin) as (Hd & _ & Hs). simpl in *.
    rewrite has_dot_app, Hs, all_digits_no_dot by exact Hd. reflexivity.
Qed.

Lemma parseVersion_leading_digit_runs_witness :
  parseVersion (join_dots (map (fun ds => (fst ds ++ snd ds)%string)
                               [("20", "rc1"); ("", "x"); ("7", "-beta")])) =
  map (fun ds => if String.eqb (fst ds) EmptyString then 0
                 else Z.min (decimal (fst ds)) maxInt)
      [("20", "rc1"); ("", "x"); ("7", "-beta")].
Proof.
  apply (proj1 parseVersion_leading_digit_runs
           [("20", "rc1"); ("", "x"); ("7", "-beta")]);
    [discriminate|repeat constructor].
Defined.

End RuntimeFacts.

(* ===================================================================== *)
(** * Properties of the transport *)
(* ===================================================================== *)

Section StringFacts.

Lemma string_app_cons (c : ascii) (a b : string) :
  (String c a ++ b)%string = String c (a ++ b)%string.
Proof. reflexivity. Qed.

Lemma string_app_nil_r (a : string) : (a ++ EmptyString)%string = a.
Proof.
  induction a as [|c a IH]; [reflexivity|].
  now rewrite string_app_cons, IH.
Qed.

Lemma string_app_assoc (a b c : string) :
  ((a ++ b) ++ c)%string = (a ++ (b ++ c))%string.
Proof.
  induction a as [|x a IH]; [reflexivity|].
  now rewrite !string_app_cons, IH.
Qed.



End StringFacts.

Section TransportFacts.

Import Mcp.

Lemma bytes_events_cons (c : ascii) (s : string) :
  bytes_events (String c s) = RByte c :: bytes_events s.
Proof. reflexivity. Qed.



(** Reading when a failure comes before any line feed: the bytes read
    so far are handed back with the error and are gone from the reader. *)
Lemma ReadBytes_from_failure (partial : string) (e : IOError) :
  has_LF partial = false ->
  forall (acc : string) (rest : list ReadEvent),
    ReadBytes_from acc (bytes_events partial ++ RFail e :: rest)%list =
    ((acc ++ partial)%string, Some e, rest).
Proof.
  unfold has_LF.
  induction partial as [|c d IH]; intros HLF acc rest.
  - simpl. now rewrite string_app_nil_r.
  - simpl in HLF. rewrite bytes_events_cons. simpl.
    fold LF. destruct (Ascii.eqb c LF) eqn:E; [unfold LF in E; now rewrite E in HLF|].
    unfold LF in E. rewrite E in HLF.
    rewrite IH by exact HLF. now rewrite string_app_assoc.
Qed.

Lemma ReadBytes_from_end (partial : string) :
  has_LF partial = false ->
  forall acc : string,
    ReadBytes_from acc (bytes_events partial) = ((acc ++ partial)%string, Some EOF, []).
Proof.
  unfold has_LF.
  induction partial as [|c d IH]; intros HLF acc.
  - simpl. now rewrite string_app_nil_r.
  - simpl in HLF. rewrite bytes_events_cons. simpl.
    fold LF. destruct (Ascii.eqb c LF) eqn:E; [unfold LF in E; now rewrite E in HLF|].
    unfold LF in E. rewrite E in HLF.
    rewrite IH by exact HLF. now rewrite string_app_assoc.
Qed.

Context {Any : Type}.
Variable Marshal : @Message Any -> result string string.
Variable Unmarshal : string -> result (@Message Any) string.






(** C10: when the stream fails or ends before a line feed is seen,
    [Receive] returns that error and no message, whatever the decoder
    would make of the bytes; the bytes read before the failure are in
    neither the result nor the reader afterwards. *)
Theorem Receive_partial_frame_discarded (partial : string) (w : Writer) :
  has_LF partial = false ->
  (forall (e : IOError) (rest : list ReadEvent),
      Receive Unmarshal (mkTransport (bytes_events partial ++ RFail e :: rest)%list w) =
      (Err (ReadFailed e), mkTransport rest w))
  /\ Receive Unmarshal (mkTransport (bytes_events partial) w) =
     (Err (ReadFailed EOF), mkTransport [] w).
Proof.
  intros HLF. split.
  - intros e rest. unfold Receive, ReadBytes. simpl reader.
    now rewrite ReadBytes_from_failure.
  - unfold Receive, ReadBytes. simpl reader.
    now rewrite ReadBytes_from_end.
Qed.

End TransportFacts.

Section JsonFacts.

Import Mcp.
Local Open Scope Z_scope.


(** *** Numbers *)










(** *** Strings *)





(** *** The members *)





(** *** The codec *)



Lemma follows_json_modelled : follows_json Marshal_modelled Unmarshal_modelled.
Proof.
  split.
  - intros msg data H. unfold Marshal_modelled. now rewrite H.
  - intros line msg H. unfold Unmarshal_modelled. now rewrite H.
Qed.

End JsonFacts.

Section RoundTrip.

Import Mcp.

Context {Any : Type}.
Variable Marshal : @Message Any -> result string string.
Variable Unmarshal : string -> result (@Message Any) string.


End RoundTrip.

Section TransportWitnesses.

Import Mcp.



Lemma Receive_partial_frame_discarded_witness :
  has_LF "{half a frame" = false /\
  Receive (fun _ : string => Ok ping)
    (mkTransport (bytes_events "{half a frame") (mkWriter EmptyString None)) =
  (Err (ReadFailed EOF), mkTransport [] (mkWriter EmptyString None)).
Proof.
  split; [reflexivity|].
  apply (proj2 (Receive_partial_frame_discarded (fun _ : string => Ok ping)
                  "{half a frame" (mkWriter EmptyString None) eq_refl)).
Defined.

End TransportWitnesses.

(* ===================================================================== *)
(** * Properties of the launcher *)
(* ===================================================================== *)

Section LaunchFacts.

Import Mcp Launcher.

Lemma State_eqb_eq (a b : State) : State_eqb a b = true <-> a = b.
Proof. destruct a, b; simpl; split; intros H; try reflexivity; discriminate. Qed.

Lemma State_eqb_neq (a b : State) : State_eqb a b = false <-> a <> b.
Proof. destruct a, b; simpl; split; intros H; try reflexivity; try discriminate;
       congruence. Qed.

Lemma same_identity_refl (proc : Process) : same_identity proc proc.
Proof. repeat split. Qed.

Lemma same_identity_trans (a b c : Process) :
  same_identity a b -> same_identity b c -> same_identity a c.
Proof. unfold same_identity. intuition congruence. Qed.

Lemma connectStdin_identity (os : OS) (opts : LaunchOptions) (proc : Process) :
  same_identity proc (fst (connectStdin os opts proc))
  /\ (forall e, snd (connectStdin os opts proc) = Some e -> is_pipe_failure e = true).
Proof.
  unfold connectStdin.
  destruct (OptStdin opts); [split; [repeat split|discriminate]|].
  destruct (StdinPipe os) as [[child mine]|reason]; simpl;
    (split; [repeat split|]); [discriminate|now intros e [= <-]].
Qed.

Lemma connectStdout_identity (os : OS) (opts : LaunchOptions) (proc : Process) :
  same_identity proc (fst (connectStdout os opts proc))
  /\ (forall e, snd (connectStdout os opts proc) = Some e -> is_pipe_failure e = true).
Proof.
  unfold connectStdout.
  destruct (OptStdout opts); [split; [repeat split|discriminate]|].
  destruct (StdoutPipe os) as [[child mine]|reason]; simpl;
    (split; [repeat split|]); [discriminate|now intros e [= <-]].
Qed.

Lemma connectStderr_identity (os : OS) (opts : LaunchOptions) (proc : Process) :
  same_identity proc (fst (connectStderr os opts proc))
  /\ (forall e, snd (connectStderr os opts proc) = Some e -> is_pipe_failure e = true).
Proof.
  unfold connectStderr.
  destruct (OptStderr opts); [split; [repeat split|discriminate]|].
  destruct (StderrPipe os) as [[child mine]|reason]; simpl;
    (split; [repeat split|]); [discriminate|now intros e [= <-]].
Qed.

Lemma startProcess_outcome (os : OS) (server : Server) (proc : Process) (l : Launcher) :
  PServer proc = server ->
  launch_outcome server l (fst (startProcess os server proc l))
                 (snd (startProcess os server proc l)).
Proof.
  intros Hs. unfold startProcess. destruct (Start os) as [reason|]; simpl.
  - now apply launch_start_failed.
  - now apply launch_started.
Qed.

Lemma connectAndStart_outcome (os : OS) (server : Server) (opts : LaunchOptions)
    (l : Launcher) (proc : Process) :
  PServer proc = server -> PState proc = StateStarting -> PError proc = None ->
  launch_outcome server l (fst (connectAndStart os server opts l proc))
                 (snd (connectAndStart os server opts l proc)).
Proof.
  intros Hs Hst Herr. unfold connectAndStart.
  destruct (connectStdin_identity os opts proc) as [(S1 & T1 & E1 & _) F1].
  destruct (connectStdin os opts proc) as [p1 [e1|]]; simpl in *.
  { apply launch_pipe_failed; [now apply F1|congruence..]. }
  destruct (connectStdout_identity os opts p1) as [(S2 & T2 & E2 & _) F2].
  destruct (connectStdout os opts p1) as [p2 [e2|]]; simpl in *.
  { apply launch_pipe_failed; [now apply F2|congruence..]. }
  destruct (connectStderr_identity os opts p2) as [(S3 & T3 & E3 & _) F3].
  destruct (connectStderr os opts p2) as [p3 [e3|]]; simpl in *.
  { apply launch_pipe_failed; [now apply F3|congruence..]. }
  apply startProcess_outcome. congruence.
Qed.

(** The command of a started process is the command [Launch] built,
    by name and arguments. *)
Lemma connectAndStart_command (os : OS) (server : Server) (opts : LaunchOptions)
    (l l' : Launcher) (proc : Process) (p : nat) :
  connectAndStart os server opts l proc = (Ok p, l') ->
  exists proc' : Process,
    heap l' !! p = Some proc'
    /\ CmdPath (PCmd proc') = CmdPath (PCmd proc)
    /\ CmdArgs (PCmd proc') = CmdArgs (PCmd proc).
Proof.
  unfold connectAndStart.
  destruct (connectStdin_identity os opts proc) as [(_ & _ & _ & P1 & A1) _].
  destruct (connectStdin os opts proc) as [p1 [e1|]]; simpl in *; [discriminate|].
  destruct (connectStdout_identity os opts p1) as [(_ & _ & _ & P2 & A2) _].
  destruct (connectStdout os opts p1) as [p2 [e2|]]; simpl in *; [discriminate|].
  destruct (connectStderr_identity os opts p2) as [(_ & _ & _ & P3 & A3) _].
  destruct (connectStderr os opts p2) as [p3 [e3|]]; simpl in *; [discriminate|].
  unfold startProcess. destruct (Start os); [discriminate|].
  intros [= <- <-]. eexists. split.
  - simpl. apply list_lookup_middle. reflexivity.
  - simpl. split; congruence.
Qed.

Lemma Launch_locked_outcome (os : OS) (server : Server) (opts : LaunchOptions)
    (l : Launcher) :
  launch_outcome server l (fst (Launch_locked os server opts l))
                 (snd (Launch_locked os server opts l)).
Proof.
  unfold Launch_locked, DetectForServer, resolveEntrypoint, buildCommand.
  destruct (Type_ server) eqn:Ety.
  - destruct (DetectNode os) as [rt|reason]; [|now apply launch_gave_up].
    destruct (_ && _); [now apply launch_gave_up|].
    destruct (Stat os _).
    + destruct (String.eqb _ ".js"); now apply connectAndStart_outcome.
    + destruct (Stat os _); [|now apply launch_gave_up].
      destruct (String.eqb _ ".js"); now apply connectAndStart_outcome.
  - destruct (DetectPython os) as [rt|reason]; [|now apply launch_gave_up].
    destruct (_ && _); [now apply launch_gave_up|].
    destruct (Stat os _); [|now apply launch_gave_up].
    now apply connectAndStart_outcome.
  - destruct (_ && _); [now apply launch_gave_up|].
    destruct (Stat os _); [|now apply launch_gave_up].
    now apply connectAndStart_outcome.
  - now apply launch_gave_up.
Qed.

Lemma Launch_locked_not_refused (os : OS) (server : Server) (opts : LaunchOptions)
    (l : Launcher) (name : string) :
  fst (Launch_locked os server opts l) <> Err (AlreadyRunning name).
Proof.
  pose proof (Launch_locked_outcome os server opts l) as H.
  destruct (Launch_locked os server opts l) as [r l']. simpl in *.
  inversion H as [e He|e proc He|reason proc|proc]; subst; try discriminate;
    intros [= ->]; discriminate.
Qed.

Lemma already_running_false (l : Launcher) (server : Server) (p : nat) (proc : Process) :
  already_running l server = false ->
  procs l !! Name server = Some p -> heap l !! p = Some proc ->
  PState proc <> StateRunning.
Proof.
  unfold already_running. intros H Hp Hproc. rewrite Hp, Hproc in H.
  now apply State_eqb_neq.
Qed.

(** A name whose registered entry is not Running has no Running
    process at all. *)
Lemma not_running_none_running (l : Launcher) (server : Server) :
  registered_ok l -> already_running l server = false ->
  none_running l (Name server).
Proof.
  intros Hok Hrun p proc Hp Hname Hst.
  pose proof (Hok p proc Hp Hst) as Hreg. rewrite Hname in Hreg.
  now apply (already_running_false l server p proc Hrun Hreg Hp).
Qed.

Lemma lookup_allocated (hp : list Process) (fresh : Process) (p : nat) (proc : Process) :
  (hp ++ [fresh])%list !! p = Some proc ->
  hp !! p = Some proc \/ (p = length hp /\ proc = fresh).
Proof.
  intros H. destruct (decide (p < length hp)) as [Hlt|Hge].
  - left. now rewrite lookup_app_l in H.
  - right. rewrite lookup_app_r in H by lia.
    destruct (p - length hp) as [|n] eqn:E; simpl in H; [|now destruct n].
    split; [lia|congruence].
Qed.





(** C9, as the code has it: the arguments of the spawned command are
    the server's declared arguments followed by the caller's, in that
    order and unchanged, after the entrypoint path when the entrypoint
    of a node server is a [.js] file, which is then run by the detected
    interpreter; otherwise the entrypoint is the command itself. *)
Theorem Launch_argument_list
    (os : OS) (server : Server) (opts : LaunchOptions) (l l' : Launcher) (p : nat) :
  Launch os server opts l = (Ok p, l') ->
  exists (proc : Process) (rt : DetectedRuntime) (entrypoint : string),
    heap l' !! p = Some proc
    /\ DetectForServer os server = Ok rt
    /\ resolveEntrypoint os server (ServerInstallPath os (Name server)) = Ok entrypoint
    /\ if runs_through_interpreter os server entrypoint
       then CmdPath (PCmd proc) = RtPath rt
            /\ arguments (PCmd proc)
               = (entrypoint :: Args server ++ OptArgs opts)%list
       else CmdPath (PCmd proc) = entrypoint
            /\ arguments (PCmd proc) = (Args server ++ OptArgs opts)%list.
Proof.
  unfold Launch. destruct (already_running l server); [discriminate|].
  unfold Launch_locked.
  destruct (DetectForServer os server) as [rt|reason]; [|discriminate].
  destruct (_ && _); [discriminate|].
  destruct (resolveEntrypoint os server _) as [entrypoint|e]; [|discriminate].
  unfold buildCommand, runs_through_interpreter, assembleArgs, arguments.
  destruct (Type_ server);
    [destruct (String.eqb (Ext os entrypoint) ".js") eqn:Hjs|..|discriminate];
    intros HL;
    apply connectAndStart_command in HL as (proc & Hp & Hpath & Hargs);
    exists proc, rt, entrypoint; rewrite Hpath, Hargs, ?Hjs; simpl; auto.
Qed.

Lemma Launch_argument_list_witness :
  let os := sample_os
              ["/home/u/.mcp-adapter/servers/filesystem/node_modules/.bin/index"] in
  exists (l' : Launcher) (proc : Process),
    Launch os sample_server sample_opts NewLauncher = (Ok 0, l')
    /\ heap l' !! 0 = Some proc
    /\ arguments (PCmd proc) = ["--root"; "/tmp"].
Proof.
  intros os.
  destruct (Launch os sample_server sample_opts NewLauncher) as [r l'] eqn:HL.
  assert (r = Ok 0) as -> by (vm_compute in HL; congruence).
  destruct (Launch_argument_list os sample_server sample_opts NewLauncher l' 0 HL)
    as (proc & rt & entrypoint & Hp & _ & Hentry & Hcmd).
  exists l', proc. split; [reflexivity|]. split; [exact Hp|].
  vm_compute in Hentry. injection Hentry as <-.
  exact (proj2 Hcmd).
Defined.

(** C9 as stated fails for a node server whose entrypoint is a [.js]
    file: the command is the interpreter and its first argument is the
    entrypoint path. *)
Lemma Launch_arguments_of_script :
  exists (l' : Launcher) (proc : Process),
    Launch (sample_os [sample_js]) sample_server sample_opts NewLauncher = (Ok 0, l')
    /\ heap l' !! 0 = Some proc
    /\ CmdPath (PCmd proc) = "/usr/bin/node"
    /\ arguments (PCmd proc) = [sample_js; "--root"; "/tmp"]
    /\ arguments (PCmd proc) <> (Args sample_server ++ OptArgs sample_opts)%list.
Proof.
  eexists. eexists. split; [vm_compute; reflexivity|].
  split; [reflexivity|]. split; [reflexivity|]. split; [reflexivity|].
  discriminate.
Qed.

(** *** Counting threads and events *)

Lemma due_app (f : Thread -> nat) (a b : list Thread) :
  due f (a ++ b) = due f a + due f b.
Proof.
  induction a as [|th a IH]; simpl; [reflexivity|]. rewrite IH. lia.
Qed.

Lemma due_insert (f : Thread -> nat) (ths : list Thread) :
  forall (k : nat) (th x : Thread),
    ths !! k = Some th ->
    due f (<[k := x]> ths) + f th = due f ths + f x.
Proof.
  induction ths as [|t ths IH]; intros k th x Hk; [discriminate|].
  destruct k as [|k]; simpl in *.
  - injection Hk as ->. lia.
  - specialize (IH k th x Hk). lia.
Qed.

Lemma wait_calls_by_event (who : Waiter) (p : nat) (e : OSEvent) (l : Launcher) :
  wait_calls_by who p (record_event e l) =
  wait_calls_by who p l + (if is_wait_by who p e then 1 else 0).
Proof.
  unfold wait_calls_by, record_event. simpl.
  rewrite List.filter_app, length_app. simpl.
  destruct (is_wait_by who p e); reflexivity.
Qed.

Lemma wait_calls_event (p : nat) (e : OSEvent) (l : Launcher) :
  wait_calls p (record_event e l) =
  wait_calls p l + (if is_wait_on p e then 1 else 0).
Proof.
  unfold wait_calls, record_event. simpl.
  rewrite List.filter_app, length_app. simpl.
  destruct (is_wait_on p e); reflexivity.
Qed.

(** Each wait was called by the watcher or by [Stop]. *)
Lemma wait_calls_split (p : nat) (l : Launcher) :
  wait_calls p l = wait_calls_by ByWatcher p l + wait_calls_by ByStop p l.
Proof.
  unfold wait_calls, wait_calls_by.
  induction (trace l) as [|e t IH]; simpl; [reflexivity|].
  destruct e as [q|q|q|q [|]]; simpl; try exact IH;
    destruct (Nat.eqb p q); simpl; lia.
Qed.

(** *** Threads after a step *)

Lemma lookup_thread_after (ths extra : list Thread) (k j : nat) (x y : Thread) :
  (<[k := x]> ths ++ extra)%list !! j = Some y ->
  (j = k /\ y = x) \/ (j <> k /\ ths !! j = Some y) \/ In y extra.
Proof.
  intros H. destruct (decide (j < length ths)) as [Hlt|Hge].
  - rewrite lookup_app_l in H by (now rewrite length_insert).
    destruct (decide (j = k)) as [->|Hne].
    + rewrite list_lookup_insert_eq in H by exact Hlt. left. split; congruence.
    + rewrite list_lookup_insert_ne in H by congruence. right. left. auto.
  - right. right. rewrite lookup_app_r in H by (rewrite length_insert; lia).
    apply list_elem_of_In. eapply list_elem_of_lookup_2. exact H.
Qed.

Lemma lookup_thread_insert (ths : list Thread) (k j : nat) (x y : Thread) :
  <[k := x]> ths !! j = Some y ->
  (j = k /\ y = x) \/ (j <> k /\ ths !! j = Some y).
Proof.
  intros H. pose proof (lookup_thread_after ths [] k j x y) as Hafter.
  rewrite List.app_nil_r in Hafter.
  destruct (Hafter H) as [?|[?|[]]]; auto.
Qed.

(** *** The heap after a step *)

Lemma lookup_updated (f : Process -> Process) (p q : nat) (l : Launcher)
    (proc' : Process) :
  heap (update_process f p l) !! q = Some proc' ->
  exists proc : Process,
    heap l !! q = Some proc /\ (proc' = proc \/ proc' = f proc).
Proof.
  unfold update_process. simpl. intros H.
  rewrite list_lookup_alter in H.
  case_decide.
  - subst q. apply fmap_Some in H as (proc & Hproc & ->). exists proc. auto.
  - exists proc'. auto.
Qed.

Lemma quiet_set_Stopping : quiet (set_State StateStopping).
Proof. intros proc. split; [reflexivity|discriminate]. Qed.

Lemma quiet_Stop_record (now : Z) : quiet (Stop_record now).
Proof. intros proc. split; [reflexivity|discriminate]. Qed.

Lemma quiet_monitorProcess_record (r : WaitResult) (now : Z) :
  quiet (monitorProcess_record r now).
Proof.
  intros proc. unfold monitorProcess_record.
  destruct r; simpl; [split; [reflexivity|discriminate]|..];
    destruct (PState proc); simpl; split; try reflexivity; discriminate.
Qed.

Lemma registered_ok_update (f : Process -> Process) (p : nat) (l : Launcher) :
  quiet f -> registered_ok l -> registered_ok (update_process f p l).
Proof.
  intros Hq Hok q proc' Hq' Hrun.
  apply lookup_updated in Hq' as (proc & Hproc & [->| ->]).
  - now apply Hok.
  - now destruct (Hq proc) as [_ Hnr].
Qed.

Lemma none_running_update (f : Process -> Process) (p : nat) (l : Launcher)
    (name : string) :
  quiet f -> none_running l name -> none_running (update_process f p l) name.
Proof.
  intros Hq Hnone q proc' Hq' Hname.
  apply lookup_updated in Hq' as (proc & Hproc & [->| ->]).
  - now apply (Hnone q).
  - now destruct (Hq proc) as [_ Hnr].
Qed.

Lemma registered_ok_launch (server : Server) (l l' : Launcher)
    (r : result nat LaunchError) :
  launch_outcome server l r l' ->
  registered_ok l -> none_running l (Name server) -> registered_ok l'.
Proof.
  intros Hout Hok Hnone.
  inversion Hout as [e He|e proc He Hsrv Hst Herr|reason proc Hsrv Hst Herr
                     |proc Hsrv Hst]; subst; clear Hout.
  - exact Hok.
  - intros q proc' Hq Hrun. simpl in *.
    apply lookup_allocated in Hq as [Hold|[_ ->]]; [now apply Hok|congruence].
  - intros q proc' Hq Hrun. simpl in *.
    apply lookup_allocated in Hq as [Hold|[_ ->]]; [now apply Hok|congruence].
  - intros q proc' Hq Hrun. simpl in *.
    apply lookup_allocated in Hq as [Hold|[-> ->]].
    + destruct (decide (Name (PServer proc') = Name (PServer proc))) as [Heq|Hne].
      * now destruct (Hnone q proc' Hold Heq).
      * rewrite lookup_insert_ne by congruence. now apply Hok.
    + apply lookup_insert_eq.
Qed.

(** *** One step keeps the invariant *)

(** The cases of [step]: every test that [step] makes is decided, and
    [Launch_locked] is replaced by its outcome. *)
Ltac step_cases Hstep w k c :=
  unfold step in Hstep; cbv zeta in Hstep;
  let th := fresh "th" in
  let Hth := fresh "Hth" in
  destruct (threads w !! k) as [th|] eqn:Hth; [|discriminate Hstep];
  destruct th; destruct c;
  try discriminate Hstep;
  repeat match type of Hstep with
    | context [is_free (mu ?w)] =>
        let Hmu := fresh "Hmu" in
        destruct (mu w) eqn:Hmu; simpl in Hstep; try discriminate Hstep
    | context [already_running ?l ?s] =>
        let Hrun := fresh "Hrun" in
        destruct (already_running l s) eqn:Hrun
    | context [Launch_locked ?os ?s ?o ?l] =>
        let Hout := fresh "Hout" in
        let r := fresh "r" in
        let l' := fresh "l'" in
        pose proof (Launch_locked_outcome os s o l) as Hout;
        destruct (Launch_locked os s o l) as [r l']; simpl in Hout
    | context [procs ?l !! ?n] =>
        let Hreg := fresh "Hreg" in
        destruct (procs l !! n) eqn:Hreg
    | context [heap ?l !! ?p] =>
        let Hproc := fresh "Hproc" in
        destruct (heap l !! p) eqn:Hproc; try discriminate Hstep
    | context [State_eqb ?a ?b] =>
        let Hst := fresh "Hst" in
        destruct (State_eqb a b) eqn:Hst
    | context [threads ?w !! ?j] =>
        let Hwaiter := fresh "Hwaiter" in
        destruct (threads w !! j) as [[| | | | | | | | | |[]]|] eqn:Hwaiter;
        try discriminate Hstep
    end;
  injection Hstep as <-.

Lemma step_keeps_registered (w w' : World) (k : nat) (c : Choice) :
  invariant w -> step k c w = Some w' -> registered_ok (launcher w').
Proof.
  intros [Hok Hmu Hnone _ _] Hstep.
  step_cases Hstep w k c; simpl; try exact Hok.
  all: try (apply registered_ok_update;
            auto using quiet_set_Stopping, quiet_Stop_record,
              quiet_monitorProcess_record).
  apply (registered_ok_launch server (launcher w) l' r Hout Hok).
  exact (Hnone k server opts Hth).
Qed.

Lemma not_locked_in_spawned (r : result nat LaunchError) (server : Server)
    (opts : LaunchOptions) :
  ~ In (LaunchLocked server opts) (spawned_by_launch r).
Proof. destruct r; simpl; intuition discriminate. Qed.

(** A [LaunchLocked] thread after a step was one before it, unless the
    step is the one that made it so. *)
Ltac locked_before Hj :=
  first [apply lookup_thread_after in Hj as [[-> Hj]|[[Hne Hj]|Hj]]
        |apply lookup_thread_insert in Hj as [[-> Hj]|[Hne Hj]]];
  try discriminate Hj;
  try (now apply not_locked_in_spawned in Hj);
  try (simpl in Hj; intuition discriminate).

Lemma step_keeps_locked_holds_mu (w w' : World) (k : nat) (c : Choice) :
  invariant w -> step k c w = Some w' ->
  forall (j : nat) (server : Server) (opts : LaunchOptions),
    threads w' !! j = Some (LaunchLocked server opts) -> mu w' = Some j.
Proof.
  intros [Hok Hmu Hnone _ _] Hstep.
  step_cases Hstep w k c; simpl; intros j s o Hj; locked_before Hj;
    try reflexivity;
    pose proof (Hmu _ _ _ Hj) as Hj'; try congruence.
  pose proof (Hmu _ _ _ Hth) as Hk. congruence.
Qed.

Lemma step_keeps_locked_none_running (w w' : World) (k : nat) (c : Choice) :
  invariant w -> step k c w = Some w' ->
  forall (j : nat) (server : Server) (opts : LaunchOptions),
    threads w' !! j = Some (LaunchLocked server opts) ->
    none_running (launcher w') (Name server).
Proof.
  intros [Hok Hmu Hnone _ _] Hstep.
  step_cases Hstep w k c; simpl; intros j s o Hj; locked_before Hj;
    try (pose proof (Hmu _ _ _ Hj) as Hj'; congruence);
    try exact (Hnone _ _ _ Hj);
    try (apply none_running_update;
         [auto using quiet_set_Stopping, quiet_Stop_record,
            quiet_monitorProcess_record
         |exact (Hnone _ _ _ Hj)]).
  - injection Hj as <- <-. now apply not_running_none_running.
  - pose proof (Hmu _ _ _ Hj) as Hj'. pose proof (Hmu _ _ _ Hth) as Hk. congruence.
Qed.


Lemma wait_calls_by_update (who : Waiter) (p q : nat) (f : Process -> Process)
    (l : Launcher) :
  wait_calls_by who p (update_process f q l) = wait_calls_by who p l.
Proof. reflexivity. Qed.

Lemma wait_calls_by_spawn (who : Waiter) (p a : nat) (m : gmap string nat)
    (h : list Process) (l : Launcher) :
  wait_calls_by who p (mkLauncher m h (trace l ++ [EvSpawn a])%list)
  = wait_calls_by who p l.
Proof.
  unfold wait_calls_by. simpl. rewrite List.filter_app, length_app. simpl.
  destruct who; simpl; lia.
Qed.

Lemma length_heap_update (f : Process -> Process) (q : nat) (l : Launcher) :
  length (heap (update_process f q l)) = length (heap l).
Proof. unfold update_process. simpl. apply length_alter. Qed.

(** The threads that are due to wait, after thread [k] has moved. *)
Ltac count_due f :=
  match goal with
  | Hth : threads ?w !! ?k = Some ?th
    |- context [due f (<[?k := ?x]> (threads ?w))] =>
      let Hdue := fresh "Hdue" in
      pose proof (due_insert f (threads w) k th x Hth) as Hdue;
      simpl in Hdue
  end.

Lemma step_keeps_watcher_waits_once (w w' : World) (k : nat) (c : Choice) :
  invariant w -> step k c w = Some w' ->
  forall p : nat,
    due (watcher_due p) (threads w') + wait_calls_by ByWatcher p (launcher w')
    <= (if decide (p < length (heap (launcher w'))) then 1 else 0).
Proof.
  intros [_ _ _ Hw _] Hstep p. specialize (Hw p).
  step_cases Hstep w k c; simpl;
    try match goal with
      | Hout : launch_outcome _ _ _ _ |- _ =>
          inversion Hout; subst; clear Hout; simpl
      end;
    rewrite ?due_app; count_due (watcher_due p);
    rewrite ?wait_calls_by_update, ?wait_calls_by_event, ?wait_calls_by_spawn,
      ?length_heap_update, ?length_app; simpl;
    unfold allocate, wait_calls_by in *; simpl in *;
    rewrite ?length_app, ?length_alter; simpl;
    repeat case_decide;
    repeat match goal with
      | |- context [Nat.eqb ?a ?b] => destruct (Nat.eqb_spec a b)
      | H : context [Nat.eqb ?a ?b] |- _ => destruct (Nat.eqb_spec a b)
      end;
    lia.
Qed.

Lemma stop_bound_update (f : Process -> Process) (q p : nat) (l : Launcher) :
  quiet f -> stop_bound l p <= stop_bound (update_process f q l) p.
Proof.
  intros Hq. unfold stop_bound, update_process. simpl.
  rewrite list_lookup_alter. case_decide; [subst q|lia].
  destruct (heap l !! p) as [proc|]; simpl; [|lia].
  destruct (Hq proc) as [_ Hnr]. apply State_eqb_neq in Hnr. rewrite Hnr.
  destruct (State_eqb (PState proc) StateRunning); lia.
Qed.

Lemma stop_bound_marked (q : nat) (l : Launcher) (proc : Process) :
  heap l !! q = Some proc ->
  stop_bound (update_process (set_State StateStopping) q l) q = 1.
Proof.
  intros Hproc. unfold stop_bound, update_process. simpl.
  rewrite list_lookup_alter. case_decide; [|congruence].
  now rewrite Hproc.
Qed.

Lemma stop_bound_running (p : nat) (l : Launcher) (proc : Process) :
  heap l !! p = Some proc -> State_eqb (PState proc) StateRunning = true ->
  stop_bound l p = 0.
Proof. intros Hproc Hst. unfold stop_bound. now rewrite Hproc, Hst. Qed.

Lemma stop_bound_grow (l l' : Launcher) (proc : Process) (p : nat) :
  heap l' = (heap l ++ [proc])%list -> stop_bound l p <= stop_bound l' p.
Proof.
  intros Hheap. unfold stop_bound. rewrite Hheap.
  destruct (heap l !! p) as [old|] eqn:Hold; [|lia].
  rewrite (lookup_app_l_Some _ _ _ _ Hold). lia.
Qed.

Lemma step_keeps_stop_waits_once (w w' : World) (k : nat) (c : Choice) :
  invariant w -> step k c w = Some w' ->
  forall p : nat,
    due (stop_due p) (threads w') + wait_calls_by ByStop p (launcher w')
    <= stop_bound (launcher w') p.
Proof.
  intros [_ _ _ _ Hs] Hstep p. specialize (Hs p).
  step_cases Hstep w k c; cbn [launcher threads];
    try match goal with
      | Hout : launch_outcome _ _ _ _ |- _ =>
          inversion Hout; subst; clear Hout;
          [|match goal with
            | |- context [stop_bound ?l' p] =>
                pose proof (stop_bound_grow (launcher w) l' _ p eq_refl)
            end..]
      end;
    try match goal with
      | |- context [stop_bound (update_process ?f ?q ?l) p] =>
          pose proof (stop_bound_update f q p l
                        ltac:(auto using quiet_set_Stopping, quiet_Stop_record,
                                quiet_monitorProcess_record))
      end;
    try match goal with
      | Hproc : heap (launcher w) !! ?q = Some ?proc,
        Hst : State_eqb (PState ?proc) StateRunning = true |- _ =>
          pose proof (stop_bound_marked q (launcher w) proc Hproc);
          pose proof (stop_bound_running q (launcher w) proc Hproc Hst)
      end;
    cbn [outcome_of_launch spawned_by_launch];
    rewrite ?due_app; count_due (stop_due p);
    rewrite ?wait_calls_by_update, ?wait_calls_by_event, ?wait_calls_by_spawn;
    unfold allocate in *;
    change (stop_bound (record_event ?e ?l) p) with (stop_bound l p) in *;
    change (wait_calls_by ByStop p (mkLauncher ?m ?h (trace ?l)))
      with (wait_calls_by ByStop p l) in *;
    cbn [due fold_right stop_due watcher_due is_wait_by] in *;
    repeat match goal with
      | |- context [Nat.eqb ?a ?b] => destruct (Nat.eqb_spec a b); subst
      | H : context [Nat.eqb ?a ?b] |- _ => destruct (Nat.eqb_spec a b); subst
      end;
    lia.
Qed.

Lemma step_keeps_invariant (w w' : World) (k : nat) (c : Choice) :
  invariant w -> step k c w = Some w' -> invariant w'.
Proof.
  intros Hinv Hstep. constructor.
  - exact (step_keeps_registered w w' k c Hinv Hstep).
  - exact (step_keeps_locked_holds_mu w w' k c Hinv Hstep).
  - exact (step_keeps_locked_none_running w w' k c Hinv Hstep).
  - exact (step_keeps_watcher_waits_once w w' k c Hinv Hstep).
  - exact (step_keeps_stop_waits_once w w' k c Hinv Hstep).
Qed.

Lemma calls_not_due (f : Thread -> nat) (calls : list Thread) :
  (forall th, is_call th = true -> f th = 0) ->
  forallb is_call calls = true -> due f calls = 0.
Proof.
  intros Hf. induction calls as [|th calls IH]; simpl; [reflexivity|].
  intros H. apply andb_true_iff in H as [Hth Hcalls].
  rewrite (Hf th Hth), IH by exact Hcalls. reflexivity.
Qed.

Lemma invariant_initial (calls : list Thread) :
  forallb is_call calls = true -> invariant (initial calls).
Proof.
  intros Hcalls. constructor; simpl.
  - intros p proc H. discriminate H.
  - intros k server opts Hk. exfalso.
    rewrite forallb_forall in Hcalls.
    assert (In (LaunchLocked server opts) calls) as Hin
        by (apply list_elem_of_In; eapply list_elem_of_lookup_2; exact Hk).
    specialize (Hcalls _ Hin). discriminate.
  - intros k server opts Hk p proc H. discriminate H.
  - intros p. rewrite (calls_not_due (watcher_due p) calls); [|intros th Hth; destruct th; try discriminate Hth; reflexivity|exact Hcalls].
    unfold wait_calls_by. simpl. lia.
  - intros p. rewrite (calls_not_due (stop_due p) calls); [|intros th Hth; destruct th; try discriminate Hth; reflexivity|exact Hcalls].
    unfold wait_calls_by, stop_bound. simpl. lia.
Qed.

Lemma run_keeps_invariant (schedule : list (nat * Choice)) :
  forall w w' : World, invariant w -> run schedule w = Some w' -> invariant w'.
Proof.
  induction schedule as [|[k c] rest IH]; intros w w' Hinv Hrun; simpl in Hrun.
  - now injection Hrun as <-.
  - destruct (step k c w) as [w1|] eqn:Hstep; [|discriminate].
    apply (IH w1 w'); [|exact Hrun].
    exact (step_keeps_invariant w w1 k c Hinv Hstep).
Qed.

Lemma reachable_invariant (w : World) : reachable w -> invariant w.
Proof.
  intros (calls & schedule & Hcalls & Hrun).
  apply (run_keeps_invariant schedule (initial calls) w); [|exact Hrun].
  now apply invariant_initial.
Qed.

Lemma reachable_sample_world : reachable sample_world.
Proof.
  exists sample_calls, (sample_schedule (sample_os [sample_js])).
  split; [reflexivity|]. vm_compute. reflexivity.
Qed.

Lemma reachable_sample_launched : reachable sample_launched.
Proof.
  exists sample_calls, (firstn 2 (sample_schedule (sample_os [sample_js]))).
  split; [reflexivity|]. vm_compute. reflexivity.
Qed.

(** C1: in every reachable world a server name has at most one
    [Process] in state Running, counting the entries no longer
    registered; and a [Launch] for a name whose registered entry is
    Running returns the already-running error and leaves the launcher
    as it is - registry, processes and the record of spawned processes -
    whether it is run as one call or as a step among other threads. *)
Theorem one_running_entry_per_name (w : World) :
  reachable w ->
  (forall (p q : nat) (proc proc' : Process),
      heap (launcher w) !! p = Some proc ->
      heap (launcher w) !! q = Some proc' ->
      PState proc = StateRunning -> PState proc' = StateRunning ->
      Name (PServer proc) = Name (PServer proc') ->
      p = q)
  /\ (forall (server : Server) (p : nat) (proc : Process),
         procs (launcher w) !! Name server = Some p ->
         heap (launcher w) !! p = Some proc ->
         PState proc = StateRunning ->
         (forall (os : OS) (opts : LaunchOptions),
             Launch os server opts (launcher w)
             = (Err (AlreadyRunning (Name server)), launcher w))
         /\ (forall (k : nat) (opts : LaunchOptions),
                threads w !! k = Some (CallLaunch server opts) ->
                mu w = None ->
                step k Proceed w
                = Some (mkWorld (launcher w) None
                          (<[k := Finished (LaunchFailed (AlreadyRunning (Name server)))]>
                             (threads w))))).
Proof.
  intros Hreach. pose proof (reachable_invariant w Hreach) as [Hok _ _ _ _].
  split.
  - intros p q proc proc' Hp Hq Hrp Hrq Hname.
    pose proof (Hok p proc Hp Hrp) as Hregp.
    pose proof (Hok q proc' Hq Hrq) as Hregq.
    rewrite Hname in Hregp. congruence.
  - intros server p proc Hreg Hp Hrun.
    assert (already_running (launcher w) server = true) as Halready.
    { unfold already_running. rewrite Hreg, Hp, Hrun. reflexivity. }
    split.
    + intros os opts. unfold Launch. now rewrite Halready.
    + intros k opts Hk Hmu. unfold step. rewrite Hk, Hmu, Halready. reflexivity.
Qed.

(** Two calls for one name: while the first holds [l.mu] the second
    cannot move; once the first has started the server, the second is
    refused, and one process has been spawned. *)
Example twin_launches_one_success :
  (forall w : World,
      run [(0, Proceed)] (initial twin_calls) = Some w -> step 1 Proceed w = None)
  /\ threads twin_world
     = [Finished (Launched 0);
        Finished (LaunchFailed (AlreadyRunning "filesystem"));
        Watcher 0]
  /\ trace (launcher twin_world) = [EvSpawn 0]
  /\ map PState (heap (launcher twin_world)) = [StateRunning].
Proof.
  split; [|repeat split; vm_compute; reflexivity].
  intros w Hrun. vm_compute in Hrun. injection Hrun as <-. reflexivity.
Qed.

Lemma one_running_entry_per_name_witness :
  reachable sample_launched
  /\ Launch (sample_os [sample_js]) sample_server sample_opts (launcher sample_launched)
     = (Err (AlreadyRunning "filesystem"), launcher sample_launched).
Proof.
  split; [exact reachable_sample_launched|].
  destruct (one_running_entry_per_name sample_launched reachable_sample_launched)
    as [_ Hrefuse].
  refine (proj1 (Hrefuse sample_server 0 _ _ _ _) (sample_os [sample_js]) sample_opts);
    vm_compute; reflexivity.
Defined.

(** C2, as the code has it: for a process the watcher calls [Cmd.Wait]
    once at most and [Stop] calls it once at most, each on its own, so
    that it is called twice at most; a [Stop] that finds the entry
    Running makes its call whether or not the watcher has made its own.
    The exit code is recorded by the watcher alone: the record that ends
    [Stop] sets the stop time and the state Stopped and leaves exit code
    and error as they are. *)
Theorem Wait_called_once_by_each (w : World) (p : nat) :
  reachable w ->
  wait_calls_by ByWatcher p (launcher w) <= 1
  /\ wait_calls_by ByStop p (launcher w) <= 1
  /\ wait_calls p (launcher w)
     = wait_calls_by ByWatcher p (launcher w) + wait_calls_by ByStop p (launcher w)
  /\ wait_calls p (launcher w) <= 2
  /\ (forall (k : nat),
         threads w !! k = Some (StopWaiter p) ->
         exists w' : World,
           step k Proceed w = Some w'
           /\ wait_calls p (launcher w') = S (wait_calls p (launcher w)))
  /\ (forall (now : Z) (proc : Process),
         ExitCode (Stop_record now proc) = ExitCode proc
         /\ PError (Stop_record now proc) = PError proc
         /\ StopTime (Stop_record now proc) = now
         /\ PState (Stop_record now proc) = StateStopped).
Proof.
  intros Hreach. pose proof (reachable_invariant w Hreach) as [_ _ _ Hw Hs].
  specialize (Hw p). specialize (Hs p).
  assert (stop_bound (launcher w) p <= 1) as Hbound.
  { unfold stop_bound. destruct (heap (launcher w) !! p) as [proc|]; [|lia].
    destruct (State_eqb (PState proc) StateRunning); lia. }
  assert (wait_calls_by ByWatcher p (launcher w) <= 1) as H1
      by (case_decide; lia).
  assert (wait_calls_by ByStop p (launcher w) <= 1) as H2 by lia.
  pose proof (wait_calls_split p (launcher w)) as Hsplit.
  repeat split; try assumption; try lia.
  intros k Hk. eexists. unfold step. rewrite Hk. split; [reflexivity|].
  cbn [launcher]. rewrite wait_calls_event. simpl. rewrite Nat.eqb_refl. lia.
Qed.

Lemma Wait_called_once_by_each_witness :
  reachable sample_world
  /\ wait_calls_by ByWatcher 0 (launcher sample_world) <= 1
  /\ wait_calls_by ByStop 0 (launcher sample_world) <= 1.
Proof.
  split; [exact reachable_sample_world|].
  destruct (Wait_called_once_by_each sample_world 0 reachable_sample_world)
    as (H1 & H2 & _).
  split; [exact H1|exact H2].
Defined.

(** C2 as stated fails: after a launch and a stop of the sample server
    [Cmd.Wait] has been called twice for the one process, first by the
    watcher and then by the goroutine of [Stop]. *)
Lemma Wait_called_twice :
  reachable sample_world
  /\ trace (launcher sample_world)
     = [EvSpawn 0; EvWait 0 ByWatcher; EvSignalTERM 0; EvWait 0 ByStop]
  /\ wait_calls 0 (launcher sample_world) = 2
  /\ ~ (forall (w : World) (p : nat), reachable w -> wait_calls p (launcher w) <= 1).
Proof.
  split; [exact reachable_sample_world|].
  split; [vm_compute; reflexivity|].
  split; [vm_compute; reflexivity|].
  intros H. specialize (H sample_world 0 reachable_sample_world).
  vm_compute in H. lia.
Qed.

End LaunchFacts.
